(** * route-to-regexp: the [Route] class of [src/index.ts]

    A [Route] is built from a template such as [/foo/{bar}]: the constructor
    replaces every placeholder by the pattern text [([^/]+)], wraps the
    result in [^...$] and hands it to [new RegExp].  [match] and [parse]
    run that regular expression, [compile] substitutes values back into
    the template.

    The development has two layers.

    - [Module JS] is the part of the ECMAScript runtime the class calls:
      strings as lists of code units, [String.prototype.slice], the
      pattern parser and backtracking matcher behind [new RegExp],
      [RegExp.prototype.exec] and the global replace loop behind
      [String.prototype.replaceAll].  Code units are 8-bit ([ascii]).
      The pattern grammar is the one of ECMA-262 with Annex B and without
      flags, restricted to disjunction, groups [( )] and [(?: )],
      lookahead, character classes, the escapes [\d \w \s \b \t \n \v \f \r]
      and identity escapes, and all quantifiers; a pattern that needs anything
      else (back references, named groups, look-behind, [\c \x \u], octal
      escapes) is reported as [Unmodelled] rather than guessed at.
      Objects used as dictionaries are finite maps from property name to
      value, the own properties of an object whose prototype is
      [%Object.prototype%]: reading falls back to the properties of
      [%Object.prototype%], and writing under [__proto__] reaches its setter.

    - [Module Route] is the class itself, method by method.  The types
      [ExtractParamNames] and [ExtractParamObject] of the source are
      evaluated by the TypeScript checker and erased from the program that
      runs; they have no counterpart here. *)

From Stdlib Require Import Ascii String ZArith Lia.
From stdpp Require Import gmap strings list fin_maps option.

Open Scope char_scope.

(** ** Part of the ECMAScript runtime *)

Module JS.

(** A string is its sequence of code units. *)
Abbreviation jsstring := (list ascii).

(** String literals of the source are written [lit "..."]. *)
Definition lit (s : string) : jsstring := list_ascii_of_string s.

(** Thrown values: the [SyntaxError] of [new RegExp] and [new Error(message)]. *)
Inductive Exn : Type :=
  | SyntaxError
  | Error (message : jsstring).

(** How an evaluation ends.  [Unmodelled] marks a pattern outside the
    fragment of the pattern grammar described above. *)
Inductive Completion (A : Type) : Type :=
  | Normal (a : A)
  | Throw (e : Exn)
  | Unmodelled.
Arguments Normal {A} a.
Arguments Throw {A} e.
Arguments Unmodelled {A}.

#[global] Instance Exn_eq_dec : EqDecision Exn.
Proof. solve_decision. Defined.

#[global] Instance Completion_eq_dec {A} `{EqDecision A} : EqDecision (Completion A).
Proof. solve_decision. Defined.

#[global] Instance Completion_ret : MRet Completion := fun A a => Normal a.

#[global] Instance Completion_bind : MBind Completion := fun A B f x =>
  match x with
  | Normal a => f a
  | Throw e => Throw e
  | Unmodelled => Unmodelled
  end.

(** Values stored in and read from the objects the class builds and
    reads: strings and [undefined], and what a dictionary object inherits
    from [%Object.prototype%], the object [%Object.prototype%] itself and
    built-in function objects. *)
Inductive Value : Type :=
  | Undefined
  | Str (s : jsstring)
  | PrototypeObject
  | BuiltinFunction (name : jsstring).

#[global] Instance Value_eq_dec : EqDecision Value.
Proof. solve_decision. Defined.

(** [ToBoolean]: [undefined] and the empty string are falsy, objects are
    truthy. *)
Definition truthy (v : Value) : bool :=
  match v with
  | Undefined => false
  | Str [] => false
  | Str (_ :: _) => true
  | PrototypeObject => true
  | BuiltinFunction _ => true
  end.

(** [ToString] on the values above, as a template literal, a property
    key or the result of a replacer function has it applied.  On
    [%Object.prototype%] it goes through [Object.prototype.toString].  On a
    built-in function it goes through [Function.prototype.toString], whose
    result ECMA-262 (20.2.3.5) only requires to have the syntax of a
    [NativeFunction]; the text below is the one of V8, the engine of Node,
    on which the test suite of the repository runs. *)
Definition ToString (v : Value) : jsstring :=
  match v with
  | Undefined => lit "undefined"
  | Str s => s
  | PrototypeObject => lit "[object Object]"
  | BuiltinFunction name => lit "function " ++ name ++ lit "() { [native code] }"
  end.

(** The properties of [%Object.prototype%] (ECMA-262, 20.1.3 and
    Annex B.2.2): built-in functions, and the accessor [__proto__], whose
    getter yields the prototype of the object it is read from, which for a
    dictionary object is [%Object.prototype%] itself. *)
Definition Object_prototype : gmap jsstring Value :=
  list_to_map
    ((lit "__proto__", PrototypeObject) ::
     (lit "constructor", BuiltinFunction (lit "Object")) ::
     ((fun name => (lit name, BuiltinFunction (lit name))) <$>
        ["hasOwnProperty"; "isPrototypeOf"; "propertyIsEnumerable";
         "toLocaleString"; "toString"; "valueOf";
         "__defineGetter__"; "__defineSetter__";
         "__lookupGetter__"; "__lookupSetter__"]%string)).

(** [obj[key]] on a dictionary object, given by its own properties: the
    value of the own property [key], else what [%Object.prototype%] has
    under [key], else [undefined]. *)
Definition Get (obj : gmap jsstring Value) (key : jsstring) : Value :=
  match obj !! key with
  | Some v => v
  | None => default Undefined (Object_prototype !! key)
  end.

(** [obj[key] = v] on a dictionary object, for [v] a string or
    [undefined].  An own property is overwritten.  Without one, the
    assignment reaches the setter of the accessor [__proto__] of
    [%Object.prototype%], which does nothing with a value that is neither an
    object nor [null]; under every other key it creates an own property, the
    other properties of [%Object.prototype%] being writable data
    properties. *)
Definition Put (obj : gmap jsstring Value) (key : jsstring) (v : Value)
  : gmap jsstring Value :=
  match obj !! key with
  | Some _ => <[key := v]> obj
  | None => if bool_decide (key = lit "__proto__") then obj else <[key := v]> obj
  end.

(** [arr[i]] on an array of strings. *)
Definition Index (arr : list jsstring) (i : nat) : Value :=
  match arr !! i with
  | Some s => Str s
  | None => Undefined
  end.

(** [s.slice(from, to)]: a negative index counts from the end, both are
    clamped to the string. *)
Definition clampIndex (len : nat) (i : Z) : nat :=
  if (i <? 0)%Z then Z.to_nat (Z.max (Z.of_nat len + i) 0)
  else Nat.min (Z.to_nat i) len.

Definition slice (s : jsstring) (from to : Z) : jsstring :=
  let a := clampIndex (length s) from in
  let b := clampIndex (length s) to in
  take (b - a) (drop a s).

(** *** Patterns *)

Inductive ClassAtom : Type :=
  | ClassChar (c : ascii)
  | ClassRange (lo hi : ascii)
  | ClassDigit (invert : bool)       (* \d \D *)
  | ClassWord (invert : bool)        (* \w \W *)
  | ClassSpace (invert : bool).      (* \s \S *)

Inductive Node : Type :=
  | Empty
  | Char (c : ascii)
  | Dot
  | CharacterClass (invert : bool) (atoms : list ClassAtom)
  | Seq (r1 r2 : Node)
  | Disjunction (r1 r2 : Node)
  | Group (parenIndex : nat) (r : Node)
  | Quantified (r : Node) (min : nat) (max : option nat) (greedy : bool)
  | AssertStart
  | AssertEnd
  | WordBoundary (invert : bool)
  | Lookahead (invert : bool) (r : Node).

Definition code (c : ascii) : nat := nat_of_ascii c.

Definition inRange (lo hi c : ascii) : bool :=
  (code lo <=? code c)%nat && (code c <=? code hi)%nat.

Definition isDigit (c : ascii) : bool := inRange "0" "9" c.

Definition isAsciiLetter (c : ascii) : bool :=
  inRange "a" "z" c || inRange "A" "Z" c.

(** [WordCharacters]: letters, digits and the underscore. *)
Definition isWordChar (c : ascii) : bool :=
  isAsciiLetter c || isDigit c || (c =? "_").

(** [WhiteSpace] and [LineTerminator] code units below 256:
    TAB, LF, VT, FF, CR, SP and NBSP. *)
Definition isSpace (c : ascii) : bool :=
  inRange "009" "013" c || (c =? " ") || (c =? "160").

(** [LineTerminator]: LF and CR.  The other two, U+2028 and U+2029, are
    not among the 8-bit code units.  [.] without the [s] flag matches
    everything but a line terminator. *)
Definition isLineTerminator (c : ascii) : bool :=
  (c =? "010") || (c =? "013").

Definition classAtomMatches (a : ClassAtom) (c : ascii) : bool :=
  match a with
  | ClassChar c' => c =? c'
  | ClassRange lo hi => inRange lo hi c
  | ClassDigit inv => xorb inv (isDigit c)
  | ClassWord inv => xorb inv (isWordChar c)
  | ClassSpace inv => xorb inv (isSpace c)
  end.

Definition classMatches (invert : bool) (atoms : list ClassAtom) (c : ascii) : bool :=
  xorb invert (existsb (fun a => classAtomMatches a c) atoms).

(** *** The backtracking matcher (ECMA-262, 22.2.2)

    A [MatchState] is the position in the input together with the captures
    so far.  The position is kept as the two halves of the input around
    [endIndex]: [before] holds the code units already consumed, nearest
    first, and [after] the ones still to read. *)

Record MatchState : Type := mkState {
  before : jsstring;
  after : jsstring;
  captures : list (option jsstring)
}.

Definition endIndex (x : MatchState) : nat := length (before x).

Definition MatcherContinuation : Type := MatchState -> option MatchState.
Definition Matcher : Type := MatchState -> MatcherContinuation -> option MatchState.

(** [CharacterSetMatcher]: consume one code unit accepted by [p]. *)
Definition CharacterSetMatcher (p : ascii -> bool) : Matcher :=
  fun x c =>
    match after x with
    | [] => None
    | ch :: rest =>
        if p ch then c (mkState (ch :: before x) rest (captures x)) else None
    end.

(** The input between the positions of [x] and of a later state [y]. *)
Definition consumed (x y : MatchState) : jsstring :=
  take (length (after x) - length (after y)) (after x).

(** The capture groups opened inside a node, for [RepeatMatcher] step 4. *)
Fixpoint groupsOf (r : Node) : list nat :=
  match r with
  | Seq r1 r2 | Disjunction r1 r2 => groupsOf r1 ++ groupsOf r2
  | Group n r' => n :: groupsOf r'
  | Quantified r' _ _ _ | Lookahead _ r' => groupsOf r'
  | _ => []
  end.

Definition clearCaptures (parens : list nat) (cap : list (option jsstring))
  : list (option jsstring) :=
  foldr (fun k acc => <[k := None]> acc) cap parens.

Definition maxIsZero (max : option nat) : bool :=
  match max with Some 0 => true | _ => false end.

(** [RepeatMatcher(m, min, max, greedy, x, c, parenIndex, parenCount)].
    An iteration either lowers [min] or consumes input, so the recursion
    is driven by [fuel], which the caller sets to [min] plus the length of
    the remaining input plus one; more fuel changes nothing
    ([RepeatMatcher_fuel] below). *)
Fixpoint RepeatMatcher (fuel : nat) (m : Matcher) (min : nat) (max : option nat)
    (greedy : bool) (parens : list nat) (x : MatchState) (c : MatcherContinuation)
  : option MatchState :=
  match fuel with
  | 0 => None
  | S fuel' =>
      if maxIsZero max then c x
      else
        let d : MatcherContinuation := fun y =>
          if (min =? 0)%nat && (endIndex y =? endIndex x)%nat then None
          else RepeatMatcher fuel' m (Nat.pred min) (Nat.pred <$> max)
                 greedy parens y c in
        let xr := mkState (before x) (after x) (clearCaptures parens (captures x)) in
        if negb (min =? 0)%nat then m xr d
        else if negb greedy then
          match c x with
          | Some z => Some z
          | None => m xr d
          end
        else
          match m xr d with
          | Some z => Some z
          | None => c x
          end
  end.

Definition headIsWordChar (s : jsstring) : bool :=
  match s with
  | [] => false
  | ch :: _ => isWordChar ch
  end.

(** [CompileSubpattern], forward direction. *)
Fixpoint CompileSubpattern (r : Node) : Matcher :=
  match r with
  | Empty => fun x c => c x
  | Char ch => CharacterSetMatcher (fun ch' => ch' =? ch)
  | Dot => CharacterSetMatcher (fun ch' => negb (isLineTerminator ch'))
  | CharacterClass invert atoms => CharacterSetMatcher (classMatches invert atoms)
  | Seq r1 r2 =>
      fun x c => CompileSubpattern r1 x (fun y => CompileSubpattern r2 y c)
  | Disjunction r1 r2 =>
      fun x c =>
        match CompileSubpattern r1 x c with
        | Some z => Some z
        | None => CompileSubpattern r2 x c
        end
  | Group parenIndex r' =>
      fun x c =>
        CompileSubpattern r' x (fun y =>
          c (mkState (before y) (after y)
               (<[parenIndex := Some (consumed x y)]> (captures y))))
  | Quantified r' min max greedy =>
      fun x c =>
        RepeatMatcher (S (min + length (after x))) (CompileSubpattern r')
          min max greedy (groupsOf r') x c
  | AssertStart =>
      fun x c => match before x with [] => c x | _ :: _ => None end
  | AssertEnd =>
      fun x c => match after x with [] => c x | _ :: _ => None end
  | WordBoundary invert =>
      fun x c =>
        let a := headIsWordChar (before x) in
        let b := headIsWordChar (after x) in
        if xorb invert (xorb a b) then c x else None
  | Lookahead false r' =>
      fun x c =>
        match CompileSubpattern r' x Some with
        | None => None
        | Some y => c (mkState (before x) (after x) (captures y))
        end
  | Lookahead true r' =>
      fun x c =>
        match CompileSubpattern r' x Some with
        | Some _ => None
        | None => c x
        end
  end.

(** *** The pattern parser (ECMA-262, 22.2.1 with Annex B.1.2, no flags) *)

(** [ExtendedPatternCharacter] of Annex B: a code unit that stands for
    itself in a pattern, which is every code unit but [^ $ \ . * + ? ( ) [ |]. *)
Definition isExtendedPatternCharacter (c : ascii) : bool :=
  negb (bool_decide (c ∈ lit "^$\.*+?()[|")).

Fixpoint span (p : ascii -> bool) (s : jsstring) : jsstring * jsstring :=
  match s with
  | [] => ([], [])
  | ch :: rest =>
      if p ch then let '(run, tl) := span p rest in (ch :: run, tl)
      else ([], s)
  end.

(** The mathematical value of [DecimalDigits]. *)
Definition decimalValue (ds : jsstring) : nat :=
  foldl (fun acc d => 10 * acc + (code d - code "0"))%nat 0%nat ds.

(** The rest of a braced quantifier after its [{]: [n}], [n,}] or [n,m}]. *)
Definition parseBraces (s : jsstring) : option (nat * option nat * jsstring) :=
  let '(ds1, r1) := span isDigit s in
  match ds1, r1 with
  | _ :: _, b :: rest =>
      if b =? "}" then Some (decimalValue ds1, Some (decimalValue ds1), rest)
      else if b =? "," then
        let '(ds2, r3) := span isDigit rest in
        match r3 with
        | b' :: rest' =>
            if b' =? "}" then
              Some (decimalValue ds1,
                    match ds2 with [] => None | _ :: _ => Some (decimalValue ds2) end,
                    rest')
            else None
        | [] => None
        end
      else None
  | _, _ => None
  end.

Definition outOfOrder (min : nat) (max : option nat) : bool :=
  match max with
  | Some m => (m <? min)%nat
  | None => false
  end.

(** An optional [Quantifier]: its bounds and greediness, and the input after it. *)
Definition parseQuantifier (s : jsstring)
  : Completion (option (nat * option nat * bool) * jsstring) :=
  let greediness (min : nat) (max : option nat) (rest : jsstring) :=
    match rest with
    | "?" :: rest' => Normal (Some (min, max, false), rest')
    | _ => Normal (Some (min, max, true), rest)
    end in
  match s with
  | "*" :: rest => greediness 0%nat None rest
  | "+" :: rest => greediness 1%nat None rest
  | "?" :: rest => greediness 0%nat (Some 1%nat) rest
  | "{" :: rest =>
      match parseBraces rest with
      | Some (min, max, rest') =>
          if outOfOrder min max then Throw SyntaxError else greediness min max rest'
      | None => Normal (None, s)
      end
  | _ => Normal (None, s)
  end.

Definition quantify (atom : Node) (rest : jsstring) (n : nat)
  : Completion (Node * jsstring * nat) :=
  '(q, rest') ← parseQuantifier rest;
  match q with
  | Some (min, max, greedy) => Normal (Quantified atom min max greedy, rest', n)
  | None => Normal (atom, rest', n)
  end.

(** [ControlEscape]: the code unit of [\t \n \v \f \r]. *)
Definition controlEscape (c : ascii) : option ascii :=
  if c =? "t" then Some "009"
  else if c =? "n" then Some "010"
  else if c =? "v" then Some "011"
  else if c =? "f" then Some "012"
  else if c =? "r" then Some "013"
  else None.

(** [CharacterClassEscape]: [\d \D \w \W \s \S]. *)
Definition classEscape (c : ascii) : option ClassAtom :=
  if c =? "d" then Some (ClassDigit false)
  else if c =? "D" then Some (ClassDigit true)
  else if c =? "w" then Some (ClassWord false)
  else if c =? "W" then Some (ClassWord true)
  else if c =? "s" then Some (ClassSpace false)
  else if c =? "S" then Some (ClassSpace true)
  else None.

(** One [ClassAtom]; the input is not empty and does not start with []]. *)
Definition parseClassAtom (s : jsstring) : Completion (ClassAtom * jsstring) :=
  match s with
  | [] => Throw SyntaxError
  | "\" :: [] => Throw SyntaxError
  | "\" :: c :: rest =>
      match classEscape c, controlEscape c with
      | Some a, _ => Normal (a, rest)
      | None, Some ch => Normal (ClassChar ch, rest)
      | None, None =>
          if c =? "b" then Normal (ClassChar "008", rest)
          else if isAsciiLetter c || isDigit c then Unmodelled
          else Normal (ClassChar c, rest)
      end
  | c :: rest => Normal (ClassChar c, rest)
  end.

(** [ClassRanges] up to and including the closing []]. *)
Fixpoint parseClassRanges (fuel : nat) (s : jsstring) (acc : list ClassAtom)
  : Completion (list ClassAtom * jsstring) :=
  match fuel with
  | 0 => Unmodelled
  | S fuel' =>
      match s with
      | [] => Throw SyntaxError
      | "]" :: rest => Normal (acc, rest)
      | _ =>
          '(a, r1) ← parseClassAtom s;
          match r1 with
          | "-" :: (c :: _) as r2 =>
              if c =? "]" then parseClassRanges fuel' r1 (acc ++ [a])
              else
                '(b, r3) ← parseClassAtom r2;
                match a, b with
                | ClassChar lo, ClassChar hi =>
                    if (code hi <? code lo)%nat then Throw SyntaxError
                    else parseClassRanges fuel' r3 (acc ++ [ClassRange lo hi])
                | _, _ => parseClassRanges fuel' r3 (acc ++ [a; ClassChar "-"; b])
                end
          | _ => parseClassRanges fuel' r1 (acc ++ [a])
          end
      end
  end.

(** [\ AtomEscape] outside a class; the flag tells whether a quantifier
    may follow ([\b] and [\B] are assertions). *)
Definition parseAtomEscape (s : jsstring) : Completion (Node * bool * jsstring) :=
  match s with
  | [] => Throw SyntaxError
  | c :: rest =>
      match classEscape c, controlEscape c with
      | Some a, _ => Normal (CharacterClass false [a], true, rest)
      | None, Some ch => Normal (Char ch, true, rest)
      | None, None =>
          if c =? "b" then Normal (WordBoundary false, false, rest)
          else if c =? "B" then Normal (WordBoundary true, false, rest)
          else if isAsciiLetter c || isDigit c then Unmodelled
          else Normal (Char c, true, rest)
      end
  end.

(** What follows the [Disjunction] of a group: its closing parenthesis. *)
Definition closeGroup (s : jsstring) : Completion jsstring :=
  match s with
  | ")" :: rest => Normal rest
  | _ => Throw SyntaxError
  end.

(** [Disjunction], [Alternative] and [Term].  [n] counts the left
    capturing parentheses seen so far, which numbers the groups.  Every
    call takes one unit of fuel and every third call at the latest follows
    a consumed code unit; [parsePattern] provides three units per code unit
    of the pattern and three more.  A descent out of fuel would end in
    [Unmodelled]. *)
Fixpoint parseDisjunction (fuel : nat) (s : jsstring) (n : nat)
  : Completion (Node * jsstring * nat) :=
  match fuel with
  | 0 => Unmodelled
  | S fuel' =>
      '(a, r1, n1) ← parseAlternative fuel' s n Empty;
      match r1 with
      | "|" :: r2 =>
          '(b, r3, n3) ← parseDisjunction fuel' r2 n1;
          Normal (Disjunction a b, r3, n3)
      | _ => Normal (a, r1, n1)
      end
  end
with parseAlternative (fuel : nat) (s : jsstring) (n : nat) (acc : Node)
  : Completion (Node * jsstring * nat) :=
  match fuel with
  | 0 => Unmodelled
  | S fuel' =>
      match s with
      | [] => Normal (acc, s, n)
      | "|" :: _ => Normal (acc, s, n)
      | ")" :: _ => Normal (acc, s, n)
      | _ =>
          '(t, r1, n1) ← parseTerm fuel' s n;
          parseAlternative fuel' r1 n1 (Seq acc t)
      end
  end
with parseTerm (fuel : nat) (s : jsstring) (n : nat)
  : Completion (Node * jsstring * nat) :=
  match fuel with
  | 0 => Unmodelled
  | S fuel' =>
      match s with
      | [] => Throw SyntaxError
      | "^" :: rest => Normal (AssertStart, rest, n)
      | "$" :: rest => Normal (AssertEnd, rest, n)
      | "(" :: "?" :: "=" :: rest =>
          '(d, r1, n1) ← parseDisjunction fuel' rest n;
          r2 ← closeGroup r1;
          quantify (Lookahead false d) r2 n1
      | "(" :: "?" :: "!" :: rest =>
          '(d, r1, n1) ← parseDisjunction fuel' rest n;
          r2 ← closeGroup r1;
          quantify (Lookahead true d) r2 n1
      | "(" :: "?" :: ":" :: rest =>
          '(d, r1, n1) ← parseDisjunction fuel' rest n;
          r2 ← closeGroup r1;
          quantify d r2 n1
      | "(" :: "?" :: _ => Unmodelled
      | "(" :: rest =>
          '(d, r1, n1) ← parseDisjunction fuel' rest (S n);
          r2 ← closeGroup r1;
          quantify (Group n d) r2 n1
      | ")" :: _ => Throw SyntaxError
      | "|" :: _ => Throw SyntaxError
      | "*" :: _ => Throw SyntaxError
      | "+" :: _ => Throw SyntaxError
      | "?" :: _ => Throw SyntaxError
      | "{" :: rest =>
          match parseBraces rest with
          | Some _ => Throw SyntaxError
          | None => quantify (Char "{") rest n
          end
      | "[" :: "^" :: rest =>
          '(atoms, r1) ← parseClassRanges (S (length rest)) rest [];
          quantify (CharacterClass true atoms) r1 n
      | "[" :: rest =>
          '(atoms, r1) ← parseClassRanges (S (length rest)) rest [];
          quantify (CharacterClass false atoms) r1 n
      | "." :: rest => quantify Dot rest n
      | "\" :: rest =>
          '(a, quantifiable, r1) ← parseAtomEscape rest;
          if quantifiable : bool then quantify a r1 n else Normal (a, r1, n)
      | c :: rest => quantify (Char c) rest n
      end
  end.

(** A compiled regular expression: the pattern and its number of
    capture groups.  Neither [PARAM_MATCHER] nor the matcher of a route
    ever has [lastIndex] observed, so it is left out. *)
Record RegExp : Type := mkRegExp {
  pattern : Node;
  nCaptures : nat
}.

Definition parsePattern (source : jsstring) : Completion RegExp :=
  '(d, rest, n) ← parseDisjunction (3 * length source + 3) source 0%nat;
  match rest with
  | [] => Normal (mkRegExp d n)
  | _ :: _ => Throw SyntaxError
  end.

(** [new RegExp(source)] *)
Definition RegExp_new (source : jsstring) : Completion RegExp :=
  parsePattern source.

(** *** Running a regular expression *)

(** One attempt at a fixed start position: all captures undefined, the
    continuation accepts any state. *)
Definition matchAt (re : RegExp) (bef aft : jsstring) : option MatchState :=
  CompileSubpattern (pattern re)
    (mkState bef aft (replicate (nCaptures re) None)) Some.

(** The match found by [RegExpBuiltinExec]: [skipped] is the input
    between the position the search started from and the start of the match,
    [matched] the matched text, [groups] the captures and [final] the state
    at the end of the match. *)
Record MatchResult : Type := mkResult {
  skipped : jsstring;
  matched : jsstring;
  groups : list (option jsstring);
  final : MatchState
}.

(** The search loop of [RegExpBuiltinExec]: try the current position,
    then the next one, up to and including the end of the input. *)
Fixpoint search (re : RegExp) (bef aft : jsstring) : option MatchResult :=
  match matchAt re bef aft with
  | Some y =>
      Some (mkResult [] (take (length aft - length (after y)) aft) (captures y) y)
  | None =>
      match aft with
      | [] => None
      | ch :: aft' =>
          match search re (ch :: bef) aft' with
          | Some r => Some (mkResult (ch :: skipped r) (matched r) (groups r) (final r))
          | None => None
          end
      end
  end.

(** [re.exec(s)] for a regular expression without flags, as the array it
    returns: the matched text, then one entry per capture group. *)
Definition exec (re : RegExp) (s : jsstring) : option (list (option jsstring)) :=
  match search re [] s with
  | Some r => Some (Some (matched r) :: groups r)
  | None => None
  end.

(** [re.test(s)] *)
Definition test (re : RegExp) (s : jsstring) : bool :=
  match exec re s with
  | Some _ => true
  | None => false
  end.

(** [s.match(re)] for a regular expression without the [g] flag is [re.exec(s)]. *)
Definition String_match (s : jsstring) (re : RegExp) : option (list (option jsstring)) :=
  exec re s.

(** *** [String.prototype.replaceAll] with a global regular expression and
    a replacer function

    [RegExp.prototype[Symbol.replace]] first collects every match: each
    search starts where the previous match ended, or one code unit later
    when that match was empty.  [matchAll] returns the matches, each with the
    text between the previous match and itself, and the text after the last
    match.  [pending] is the code unit stepped over after an empty match. *)
Fixpoint matchAll (fuel : nat) (re : RegExp) (pending bef aft : jsstring)
  : list (jsstring * MatchResult) * jsstring :=
  match fuel with
  | 0 => ([], pending ++ aft)
  | S fuel' =>
      match search re bef aft with
      | None => ([], pending ++ aft)
      | Some r =>
          let gap := pending ++ skipped r in
          let y := final r in
          match matched r with
          | [] =>
              match after y with
              | [] => ([(gap, r)], [])
              | ch :: rest =>
                  let '(rs, trailing) := matchAll fuel' re [ch] (ch :: before y) rest in
                  ((gap, r) :: rs, trailing)
              end
          | _ :: _ =>
              let '(rs, trailing) := matchAll fuel' re [] (before y) (after y) in
              ((gap, r) :: rs, trailing)
          end
      end
  end.

(** A replacer function receives the matched text.  It may update the
    variables it closes over (the state [St]) and it may throw. *)
Definition Replacer (St : Type) : Type := jsstring -> St -> Completion (jsstring * St).

(** Then the replacer is called once per match, in order, and the result
    is assembled from the text between the matches and the replacements. *)
Fixpoint substitute {St : Type} (f : Replacer St)
    (rs : list (jsstring * MatchResult)) (trailing : jsstring) (st : St)
  : Completion (jsstring * St) :=
  match rs with
  | [] => Normal (trailing, st)
  | (gap, r) :: rs' =>
      '(replacement, st1) ← f (matched r) st;
      '(out, st2) ← substitute f rs' trailing st1;
      Normal (gap ++ replacement ++ out, st2)
  end.

Definition replaceAll {St : Type} (s : jsstring) (re : RegExp) (f : Replacer St) (st : St)
  : Completion (jsstring * St) :=
  let '(rs, trailing) := matchAll (S (length s)) re [] [] s in
  substitute f rs trailing st.

End JS.

(** ** The class [Route] *)

Module Route.
Import JS.

(** [const PARAM_MATCHER = /\{([^{}]+)\}/g] *)
Definition PARAM_MATCHER : RegExp :=
  mkRegExp
    (Seq (Seq (Seq Empty (Char "{"))
            (Group 0 (Seq Empty
               (Quantified (CharacterClass true [ClassChar "{"; ClassChar "}"])
                  1 None true))))
       (Char "}"))
    1.

(** [const PARAM_REGEX_STRING = '([^/]+)'] *)
Definition PARAM_REGEX_STRING : jsstring := lit "([^/]+)".

Record Route : Type := mkRoute {
  format : jsstring;
  paramNames : list jsstring;
  isStatic : bool;
  regex : RegExp
}.

(** [new Route(format)].  The replacer pushes the placeholder name on
    [paramNames], the variable it closes over. *)
Definition new (format : jsstring) : Completion Route :=
  '(regexString, paramNames) ←
    replaceAll format PARAM_MATCHER
      (fun matchedParam (paramNames : list jsstring) =>
         let paramName := slice matchedParam 1 (-1) in
         Normal (PARAM_REGEX_STRING, paramNames ++ [paramName]))
      [];
  regex ← RegExp_new (lit "^" ++ regexString ++ lit "$");
  Normal (mkRoute format paramNames (bool_decide (length paramNames = 0%nat)) regex).

(** [route.match(path)] *)
Definition match_ (this : Route) (path : jsstring) : bool :=
  test (regex this) path.

Definition ofCapture (o : option jsstring) : Value :=
  match o with
  | Some s => Str s
  | None => Undefined
  end.

(** [route.parse(path)]; [None] is [null].  The loop runs over
    [i = 1 .. match.length - 1] and assigns [params[paramNames[i - 1]]],
    the property key being [ToString] of what [paramNames[i - 1]] yields
    and [params] starting as the object literal [{}]. *)
Definition parse (this : Route) (path : jsstring) : option (gmap jsstring Value) :=
  match String_match path (regex this) with
  | None => None
  | Some m =>
      Some (foldl
              (fun (params : gmap jsstring Value) (i : nat) =>
                 let segment := ofCapture (default None (m !! i)) in
                 let paramName := Index (paramNames this) (i - 1) in
                 Put params (ToString paramName) segment)
              ∅ (seq 1 (length m - 1)))
  end.

(** [route.compile(params)]; [None] is a call without argument. *)
Definition compile (this : Route) (params : option (gmap jsstring Value))
  : Completion jsstring :=
  if isStatic this then
    match params with
    | Some _ =>
        Throw (Error (lit "expected no parameters for static url: " ++ format this))
    | None => Normal (format this)
    end
  else
    match params with
    | None =>
        Throw (Error (lit "expected parameters for non-static url: " ++ format this))
    | Some params =>
        '(path, _) ←
          replaceAll (format this) PARAM_MATCHER
            (fun matchedParam (_ : unit) =>
               let paramName := slice matchedParam 1 (-1) in
               if negb (truthy (Get params paramName)) then
                 Throw (Error (lit "expected {" ++ paramName ++
                               lit "} in parameters for url: " ++ format this))
               else Normal (ToString (Get params paramName), tt))
            tt;
        Normal path
    end.

End Route.

(** ** Vocabulary for talking about templates

    The constructor and [compile] both cut the template with
    [PARAM_MATCHER]; the statements below speak about a template through
    that same cut. *)

Module Template.
Import JS Route.

(** The matches of [PARAM_MATCHER] in a template, each with the literal
    text in front of it, and the literal text after the last one. *)
Definition scan (format : jsstring) : list (jsstring * MatchResult) * jsstring :=
  matchAll (S (length format)) PARAM_MATCHER [] [] format.

(** The literal text in front of each placeholder. *)
Definition gaps (format : jsstring) : list jsstring := (scan format).1.*1.

(** The literal text after the last placeholder. *)
Definition trailing (format : jsstring) : jsstring := (scan format).2.

(** The literal texts with [cs] put in the placeholder positions. *)
Fixpoint fill (gs : list jsstring) (tl : jsstring) (cs : list jsstring) : jsstring :=
  match gs, cs with
  | g :: gs', c :: cs' => g ++ c ++ fill gs' tl cs'
  | _, _ => tl
  end.

(** [{name}] *)
Definition placeholder (name : jsstring) : jsstring := lit "{" ++ name ++ lit "}".

Definition isBrace (c : ascii) : bool := (c =? "{") || (c =? "}").

(** What may stand between the braces of a placeholder: one or more code
    units, none of them a brace. *)
Definition isName (name : jsstring) : Prop :=
  name ≠ [] ∧ Forall (fun c => isBrace c = false) name.

Definition hasPlaceholder (s : jsstring) : Prop :=
  ∃ pre name post, s = pre ++ placeholder name ++ post ∧ isName name.

(** What a placeholder position may consume: one or more code units,
    none of them [/]. *)
Definition segment (c : jsstring) : Prop := c ≠ [] ∧ "/" ∉ c.

(** A path conforms to a template when it is the literal texts with a
    segment in every placeholder position. *)
Definition conforms (format path : jsstring) : Prop :=
  ∃ cs, length cs = length (gaps format) ∧ Forall segment cs ∧
        path = fill (gaps format) (trailing format) cs.

(** Every code unit of the literal texts of the template stands for itself
    in a pattern: none is one of [^ $ \ . * + ? ( ) [ |]. *)
Definition plain (format : jsstring) : bool :=
  forallb (forallb isExtendedPatternCharacter) (gaps format ++ [trailing format]).

(** The literal text between any two consecutive placeholders contains a [/]. *)
Definition separated (format : jsstring) : bool :=
  forallb (fun g => bool_decide ("/" ∈ g)) (tail (gaps format)).

(** The mapping [parse] builds from the names and the captured texts:
    later positions overwrite earlier ones, and nothing is stored under
    [__proto__]. *)
Definition assign (names cs : list jsstring) : gmap jsstring Value :=
  foldl (fun (m : gmap jsstring Value) '(name, c) => Put m name (Str c)) ∅ (zip names cs).

(** The pattern a plain template compiles to: a
    sequence of items, one per literal code unit and one per placeholder. *)
Inductive Item : Type :=
  | Lit (c : ascii)
  | Hole (parenIndex : nat).

Definition notSlashPlus : Node :=
  Quantified (CharacterClass true [ClassChar "/"]) 1 None true.

Definition itemNode (i : Item) : Node :=
  match i with
  | Lit c => Char c
  | Hole n => Group n (Seq Empty notSlashPlus)
  end.

Definition itemSource (i : Item) : jsstring :=
  match i with
  | Lit c => [c]
  | Hole _ => PARAM_REGEX_STRING
  end.

Fixpoint itemsFrom (n : nat) (gs : list jsstring) (tl : jsstring) : list Item :=
  match gs with
  | [] => Lit <$> tl
  | g :: gs' => (Lit <$> g) ++ Hole n :: itemsFrom (S n) gs' tl
  end.

Definition templateNode (gs : list jsstring) (tl : jsstring) : Node :=
  Seq (foldl Seq (Seq Empty AssertStart) (itemNode <$> itemsFrom 0 gs tl)) AssertEnd.

(** The input a sequence of items consumes when its holes take [cs], the
    captures it leaves, and its number of holes. *)
Fixpoint fillItems (its : list Item) (cs : list jsstring) : jsstring :=
  match its with
  | [] => []
  | Lit ch :: its' => ch :: fillItems its' cs
  | Hole _ :: its' =>
      match cs with
      | c :: cs' => c ++ fillItems its' cs'
      | [] => []
      end
  end.

Fixpoint capItems (its : list Item) (cs : list jsstring) (cap : list (option jsstring))
  : list (option jsstring) :=
  match its with
  | [] => cap
  | Lit _ :: its' => capItems its' cs cap
  | Hole n :: its' =>
      match cs with
      | c :: cs' => capItems its' cs' (<[n := Some c]> cap)
      | [] => cap
      end
  end.

Fixpoint holes (its : list Item) : nat :=
  match its with
  | [] => 0
  | Lit _ :: its' => holes its'
  | Hole _ :: its' => S (holes its')
  end.

(** [y] is a state of the same input as [x], at the same position or further. *)
Definition later (x y : MatchState) : Prop :=
  reverse (before y) ++ after y = reverse (before x) ++ after x ∧
  length (after y) ≤ length (after x).

(** A matcher that calls its continuation on later states only. *)
Definition Forward (m : Matcher) : Prop :=
  ∀ x c c', (∀ y, later x y → c y = c' y) → m x c = m x c'.

(** A sequence of nodes run from left to right. *)
Fixpoint runList (ns : list Node) (x : MatchState) (c : MatcherContinuation)
  : option MatchState :=
  match ns with
  | [] => c x
  | n :: ns' => CompileSubpattern n x (fun y => runList ns' y c)
  end.

(** A greedy run of code units accepted by [p]: first try to take one
    more, then continue from here. *)
Fixpoint greedyRun (p : ascii -> bool) (c : MatcherContinuation)
    (bef aft : jsstring) (cap : list (option jsstring)) : option MatchState :=
  match aft with
  | ch :: rest =>
      if p ch then
        match greedyRun p c (ch :: bef) rest cap with
        | Some z => Some z
        | None => c (mkState bef aft cap)
        end
      else c (mkState bef aft cap)
  | [] => c (mkState bef aft cap)
  end.

(** Where [PARAM_MATCHER] matches at the start of [aft]: the name and the
    input after the closing brace. *)
Definition placeholderAt (aft : jsstring) : option (jsstring * jsstring) :=
  match aft with
  | a :: s =>
      if a =? "{" then
        match span (fun c => negb (isBrace c)) s with
        | ((_ :: _) as name, b :: rest) => if b =? "}" then Some (name, rest) else None
        | _ => None
        end
      else None
  | [] => None
  end.

(** The first placeholder of [aft]: the text in front of it, its name and
    the input after it. *)
Fixpoint findPlaceholder (aft : jsstring) : option (jsstring * jsstring * jsstring) :=
  match placeholderAt aft with
  | Some (name, rest) => Some ([], name, rest)
  | None =>
      match aft with
      | [] => None
      | ch :: aft' =>
          match findPlaceholder aft' with
          | Some (sk, name, rest) => Some (ch :: sk, name, rest)
          | None => None
          end
      end
  end.

(** The names the replacers of the constructor and of [compile] compute,
    one per match of [PARAM_MATCHER]. *)
Definition names (format : jsstring) : list jsstring :=
  (fun gr : jsstring * MatchResult => slice (matched gr.2) 1 (-1)) <$> (scan format).1.

(** The text the constructor hands to [new RegExp], without its anchors. *)
Definition regexSource (format : jsstring) : jsstring :=
  fill (gaps format) (trailing format) (replicate (length (gaps format)) PARAM_REGEX_STRING).

Definition itemsSource (its : list Item) : jsstring := concat (itemSource <$> its).

(** Items whose literal code units stand for themselves and whose holes
    are numbered from [n] on. *)
Fixpoint plainItems (n : nat) (its : list Item) : Prop :=
  match its with
  | [] => True
  | Lit c :: its' => isExtendedPatternCharacter c = true ∧ plainItems n its'
  | Hole k :: its' => k = n ∧ plainItems (S n) its'
  end.

(** No [Quantifier] at the start of [s]. *)
Definition noQuantifier (s : jsstring) : bool :=
  match s with
  | c :: rest =>
      negb (bool_decide (c ∈ lit "*+?")) &&
      (negb (c =? "{") || match parseBraces rest with None => true | Some _ => false end)
  | [] => true
  end.

(** What stands between the braces of a braced quantifier, as far as the
    proofs need it. *)
Definition quantifierBody (body : jsstring) : Prop :=
  body ≠ [] ∧
  Forall (fun c => isBrace c = false ∧ c ∉ lit "([^/]+)$") body.

(** No [{] of [src] opens a braced quantifier. *)
Definition noBracedQuantifier (src : jsstring) : Prop :=
  ∀ pre post, src = pre ++ "{" :: post → parseBraces post = None.

Definition notSlash (c : ascii) : bool := classMatches true [ClassChar "/"] c.

Definition notBrace (c : ascii) : bool := negb (isBrace c).

(** The continuation of the closing [$]. *)
Definition atEnd : MatcherContinuation :=
  fun y => match after y with [] => Some y | _ :: _ => None end.

(** The name a replacer computes from a match. *)
Definition nameOf (gr : jsstring * MatchResult) : jsstring := slice (matched gr.2) 1 (-1).

(** The error of [compile] for a placeholder without a value. *)
Definition missing (f paramName : jsstring) : Exn :=
  Error (lit "expected {" ++ paramName ++ lit "} in parameters for url: " ++ f).

(** The replacer of [compile]. *)
Definition compileReplacer (params : gmap jsstring Value) (f : jsstring) : Replacer unit :=
  fun matchedParam (_ : unit) =>
    let paramName := slice matchedParam 1 (-1) in
    if negb (truthy (Get params paramName)) then
      Throw (Error (lit "expected {" ++ paramName ++
                    lit "} in parameters for url: " ++ f))
    else Normal (ToString (Get params paramName), tt).

(** The number of [/] in a text. *)
Definition slashes (s : jsstring) : nat := length (filter (fun c => c = "/") s).

(** The literal text of a template: what stands outside its placeholders. *)
Definition literal (format : jsstring) : jsstring :=
  concat (gaps format) ++ trailing format.

(** Templates with a [.] in their literal text: every code unit of the
    literal texts stands for itself in a pattern or is a [.]. *)
Definition plainOrDot (c : ascii) : bool := isExtendedPatternCharacter c || (c =? ".").

Definition plainWithDots (format : jsstring) : bool :=
  forallb (forallb plainOrDot) (gaps format ++ [trailing format]).

(** What a code unit [t] of such a literal text accepts: a [.] any code
    unit that is no line terminator, another one itself. *)
Definition accepts (t c : ascii) : bool :=
  if t =? "." then negb (isLineTerminator c) else c =? t.

(** [s] is the literal text [g] with an accepted code unit in the place
    of each of its code units. *)
Definition instance (g s : jsstring) : Prop :=
  Forall2 (fun t c => accepts t c = true) g s.

(** A path conforms to such a template when it is instances of the
    literal texts with a segment in every placeholder position. *)
Definition conformsWithDots (format path : jsstring) : Prop :=
  ∃ ls tl cs, Forall2 instance (gaps format) ls ∧ instance (trailing format) tl ∧
              length cs = length ls ∧ Forall segment cs ∧ path = fill ls tl cs.

(** The pattern such a template compiles to. *)
Definition dotNode (c : ascii) : Node := if c =? "." then Dot else Char c.

Definition dotItemNode (i : Item) : Node :=
  match i with
  | Lit c => dotNode c
  | Hole n => itemNode (Hole n)
  end.

Definition dotTemplateNode (gs : list jsstring) (tl : jsstring) : Node :=
  Seq (foldl Seq (Seq Empty AssertStart) (dotItemNode <$> itemsFrom 0 gs tl)) AssertEnd.

Fixpoint dotItems (n : nat) (its : list Item) : Prop :=
  match its with
  | [] => True
  | Lit c :: its' => plainOrDot c = true ∧ dotItems n its'
  | Hole k :: its' => k = n ∧ dotItems (S n) its'
  end.

(** Item [j] is item [i] with an accepted code unit in the place of its own. *)
Definition itemAccepts (i j : Item) : Prop :=
  match i, j with
  | Lit t, Lit c => accepts t c = true
  | Hole n, Hole k => n = k
  | _, _ => False
  end.

(** The lexicographic order on lists of numbers: [l1] is [l2] or comes
    before it. *)
Fixpoint lexle (l1 l2 : list nat) : Prop :=
  match l1, l2 with
  | a :: l1', b :: l2' => a < b ∨ (a = b ∧ lexle l1' l2')
  | [], _ => True
  | _ :: _, [] => False
  end.

End Template.

(** ** The routes of the test suite and a few more *)

Module Samples.
Import JS Route.

Definition compiled (format : string) : Route :=
  match new (lit format) with
  | Normal r => r
  | _ => mkRoute [] [] true (mkRegExp Empty 0)
  end.

Definition foo : Route := Eval vm_compute in compiled "/foo".
Definition fooBar : Route := Eval vm_compute in compiled "/foo/{bar}".
Definition fooBarBaz : Route := Eval vm_compute in compiled "/foo/{bar}/{baz}".

(** A literal [.], a literal group, two placeholders side by side. *)
Definition dotted : Route := Eval vm_compute in compiled "/a.b".
Definition grouped : Route := Eval vm_compute in compiled "/(a)/{b}".
Definition adjacent : Route := Eval vm_compute in compiled "/{a}{b}".

(** A literal [+], a name used twice. *)
Definition repeated : Route := Eval vm_compute in compiled "/a+".
Definition twice : Route := Eval vm_compute in compiled "/{a}/{a}".

(** Parameter objects: [{ bar: 'abc', baz: 'def' }], [{ bar: 'abc' }]
    and [{ a: 'x', b: 'yz' }]. *)
Definition abcDef : gmap jsstring Value :=
  <[lit "bar" := Str (lit "abc")]> {[ lit "baz" := Str (lit "def") ]}.
Definition onlyBar : gmap jsstring Value := {[ lit "bar" := Str (lit "abc") ]}.

(** [{ a: 'y' }] and [{ b: 'x' }] *)
Definition onlyA : gmap jsstring Value := {[ lit "a" := Str (lit "y") ]}.

(** [{ bar: 'a/b' }] *)
Definition slashed : gmap jsstring Value := {[ lit "bar" := Str (lit "a/b") ]}.

(** Placeholders named like properties of [%Object.prototype%]. *)
Definition proto : Route := Eval vm_compute in compiled "/{__proto__}".


End Samples.

(** ** Facts about the runtime *)

Import JS Route Template.

(** A decidable closed statement, settled by evaluating its decision. *)
Ltac by_evaluation := apply (bool_decide_unpack _); vm_compute; exact I.

Local Arguments Nat.eqb : simpl never.

(** *** The fuel of [RepeatMatcher] is never used up *)

Lemma later_refl x : later x x.
Proof. by split. Qed.

Lemma later_trans x y z : later x y → later y z → later x z.
Proof. intros [H1 H2] [H3 H4]. split; [congruence|lia]. Qed.

Lemma later_captures x y cap :
  later x y → later x (mkState (before y) (after y) cap).
Proof. done. Qed.

Lemma later_from_captures x y cap :
  later (mkState (before x) (after x) cap) y → later x y.
Proof. done. Qed.

Lemma later_endIndex x y :
  later x y → endIndex y ≠ endIndex x → length (after y) < length (after x).
Proof.
  unfold endIndex. intros [Heq Hle] Hne.
  apply (f_equal length) in Heq. rewrite !length_app, !length_reverse in Heq. lia.
Qed.

Lemma Forward_CharacterSetMatcher p : Forward (CharacterSetMatcher p).
Proof.
  intros [bef aft cap] c c' H. unfold CharacterSetMatcher. simpl.
  destruct aft as [|ch rest]; [done|]. destruct (p ch); [|done].
  apply H. split; simpl; [|lia]. by rewrite reverse_cons, <- app_assoc.
Qed.

Lemma Forward_RepeatMatcher m min max greedy parens fuel :
  Forward m → Forward (RepeatMatcher fuel m min max greedy parens).
Proof.
  intros Hm. revert min max.
  induction fuel as [|fuel IH]; intros min max x c c' H; [done|].
  cbn [RepeatMatcher]. destruct (maxIsZero max); [by apply H, later_refl|].
  set (xr := mkState (before x) (after x) (clearCaptures parens (captures x))).
  assert (Hd : m xr (fun y =>
                 if (min =? 0)%nat && (endIndex y =? endIndex x)%nat then None
                 else RepeatMatcher fuel m (Nat.pred min) (Nat.pred <$> max) greedy parens y c)
             = m xr (fun y =>
                 if (min =? 0)%nat && (endIndex y =? endIndex x)%nat then None
                 else RepeatMatcher fuel m (Nat.pred min) (Nat.pred <$> max) greedy parens y c')).
  { apply Hm. intros y Hy. destruct (_ && _); [done|].
    apply IH. intros z Hz. apply H. by apply (later_trans x y z). }
  rewrite Hd, (H x (later_refl x)). done.
Qed.

Lemma Forward_CompileSubpattern r : Forward (CompileSubpattern r).
Proof.
  induction r as [|ch| |inv atoms|r1 IH1 r2 IH2|r1 IH1 r2 IH2|n r IH|r IH min max greedy
                 | | |inv|inv r IH]; intros x c c' H; cbn [CompileSubpattern].
  - by apply H, later_refl.
  - by apply Forward_CharacterSetMatcher.
  - by apply Forward_CharacterSetMatcher.
  - by apply Forward_CharacterSetMatcher.
  - apply IH1. intros y Hy. apply IH2. intros z Hz. apply H. by apply (later_trans x y z).
  - rewrite (IH1 x c c' H), (IH2 x c c' H). done.
  - apply IH. intros y Hy. apply H. exact Hy.
  - by apply Forward_RepeatMatcher.
  - destruct (before x); [by apply H, later_refl|done].
  - destruct (after x); [by apply H, later_refl|done].
  - destruct (xorb _ _); [by apply H, later_refl|done].
  - destruct inv.
    + destruct (CompileSubpattern r x Some); [done|by apply H, later_refl].
    + destruct (CompileSubpattern r x Some) as [y|]; [|done]. apply H. by split.
Qed.

Lemma RepeatMatcher_S fuel m min max greedy parens x c :
  RepeatMatcher (S fuel) m min max greedy parens x c
  = if maxIsZero max then c x
    else
      let d : MatcherContinuation := fun y =>
        if (min =? 0)%nat && (endIndex y =? endIndex x)%nat then None
        else RepeatMatcher fuel m (Nat.pred min) (Nat.pred <$> max) greedy parens y c in
      let xr := mkState (before x) (after x) (clearCaptures parens (captures x)) in
      if negb (min =? 0)%nat then m xr d
      else if negb greedy then
        match c x with
        | Some z => Some z
        | None => m xr d
        end
      else
        match m xr d with
        | Some z => Some z
        | None => c x
        end.
Proof. done. Qed.

(** One more unit of fuel than [min] plus the length of the remaining
    input changes nothing. *)
Lemma RepeatMatcher_fuel_S m greedy parens fuel : ∀ min max x c,
  Forward m → min + length (after x) < fuel →
  RepeatMatcher (S fuel) m min max greedy parens x c
  = RepeatMatcher fuel m min max greedy parens x c.
Proof.
  induction fuel as [|fuel IH]; intros min max x c Hm Hf; [lia|].
  rewrite (RepeatMatcher_S (S fuel)), (RepeatMatcher_S fuel).
  destruct (maxIsZero max); [done|]. cbv zeta.
  set (xr := mkState (before x) (after x) (clearCaptures parens (captures x))).
  assert (Hd : m xr (fun y =>
                 if (min =? 0)%nat && (endIndex y =? endIndex x)%nat then None
                 else RepeatMatcher (S fuel) m (Nat.pred min) (Nat.pred <$> max) greedy parens y c)
             = m xr (fun y =>
                 if (min =? 0)%nat && (endIndex y =? endIndex x)%nat then None
                 else RepeatMatcher fuel m (Nat.pred min) (Nat.pred <$> max) greedy parens y c)).
  { apply Hm. intros y Hy.
    destruct (Nat.eqb_spec min 0) as [->|Hmin]; cbn [andb].
    - destruct (Nat.eqb_spec (endIndex y) (endIndex x)) as [|Hne]; [done|].
      apply IH; [done|]. apply (later_endIndex x y) in Hne; [|exact Hy]. simpl. lia.
    - apply IH; [done|]. destruct Hy as [_ Hle]. cbn [after xr] in Hle. lia. }
  by rewrite Hd.
Qed.

Lemma RepeatMatcher_fuel r min max greedy x c k :
  RepeatMatcher (S (min + length (after x)) + k) (CompileSubpattern r)
    min max greedy (groupsOf r) x c
  = CompileSubpattern (Quantified r min max greedy) x c.
Proof.
  cbn [CompileSubpattern]. induction k as [|k IH]; [by rewrite Nat.add_0_r|].
  rewrite Nat.add_succ_r, RepeatMatcher_fuel_S; [done| |lia].
  apply Forward_CompileSubpattern.
Qed.

(** *** Greedy runs of one character class *)

Section Runs.
Context (p : ascii -> bool).

Lemma RepeatMatcher_star c aft : ∀ fuel bef cap,
  length aft < fuel →
  RepeatMatcher fuel (CharacterSetMatcher p) 0 None true [] (mkState bef aft cap) c
  = greedyRun p c bef aft cap.
Proof.
  induction aft as [|ch rest IH]; intros [|fuel] bef cap Hf; simpl in *; try lia.
  - done.
  - unfold CharacterSetMatcher; simpl. destruct (p ch); [|done].
    unfold endIndex; simpl.
    rewrite (proj2 (Nat.eqb_neq (S (length bef)) (length bef))) by lia.
    simpl. rewrite IH by lia. done.
Qed.

Lemma RepeatMatcher_plus c aft fuel bef cap :
  length aft < fuel →
  RepeatMatcher (S fuel) (CharacterSetMatcher p) 1 None true [] (mkState bef aft cap) c
  = match aft with
    | ch :: rest => if p ch then greedyRun p c (ch :: bef) rest cap else None
    | [] => None
    end.
Proof.
  intros Hf. simpl. unfold CharacterSetMatcher at 1; simpl.
  destruct aft as [|ch rest]; [done|]. destruct (p ch); [|done].
  simpl in Hf. apply RepeatMatcher_star. lia.
Qed.

Lemma greedyRun_sound c aft : ∀ bef cap z,
  greedyRun p c bef aft cap = Some z →
  ∃ pre rest, aft = pre ++ rest ∧ Forall (fun ch => p ch = true) pre ∧
              c (mkState (reverse pre ++ bef) rest cap) = Some z.
Proof.
  induction aft as [|ch rest IH]; intros bef cap z H; simpl in H.
  - exists [], []. done.
  - destruct (p ch) eqn:Hp.
    + destruct (greedyRun p c (ch :: bef) rest cap) as [z'|] eqn:Hg.
      * injection H as ->. apply IH in Hg as (pre & rest' & -> & Hall & Hc).
        exists (ch :: pre), rest'. split_and!; [done|by constructor|].
        rewrite reverse_cons, <- app_assoc. done.
      * exists [], (ch :: rest). done.
    + exists [], (ch :: rest). done.
Qed.

Lemma greedyRun_complete c pre : ∀ rest bef cap,
  Forall (fun ch => p ch = true) pre →
  is_Some (c (mkState (reverse pre ++ bef) rest cap)) →
  is_Some (greedyRun p c bef (pre ++ rest) cap).
Proof.
  induction pre as [|ch pre IH]; intros rest bef cap Hall Hc; simpl in *.
  - destruct rest as [|ch rest]; simpl; [done|].
    destruct (p ch); [|done]. destruct (greedyRun _ _ _ _ _); [done|done].
  - inversion Hall as [|?? Hp Hall']; subst. rewrite Hp.
    rewrite reverse_cons, <- app_assoc in Hc.
    destruct (IH rest (ch :: bef) cap Hall' Hc) as [z ->]. done.
Qed.

Lemma greedyRun_maximal c aft : ∀ bef cap,
  (∀ bef' ch rest', p ch = true → c (mkState bef' (ch :: rest') cap) = None) →
  greedyRun p c bef aft cap
  = c (mkState (reverse (span p aft).1 ++ bef) (span p aft).2 cap).
Proof.
  induction aft as [|ch rest IH]; intros bef cap Hc; simpl; [done|].
  destruct (p ch) eqn:Hp; [|done].
  rewrite IH by done. destruct (span p rest) as [run tl] eqn:Hs. simpl.
  rewrite reverse_cons, <- app_assoc. simpl.
  destruct (c _) eqn:Hc'; [done|]. by rewrite Hc.
Qed.

End Runs.


Lemma notSlash_spec c : notSlash c = true ↔ c ≠ "/".
Proof.
  unfold notSlash, classMatches; simpl. rewrite orb_false_r.
  destruct (Ascii.eqb_spec c "/"); simpl; split; congruence.
Qed.

Lemma Forall_notSlash s : Forall (fun ch => notSlash ch = true) s ↔ "/" ∉ s.
Proof.
  rewrite list.Forall_forall. split.
  - intros H Hin. apply H in Hin. by apply notSlash_spec in Hin.
  - intros H c Hin. apply notSlash_spec. intros ->. done.
Qed.

Lemma consumed_app bef bef' pre rest cap cap' :
  consumed (mkState bef (pre ++ rest) cap) (mkState bef' rest cap') = pre.
Proof.
  unfold consumed; simpl. rewrite length_app.
  replace (length pre + length rest - length rest) with (length pre) by lia.
  by rewrite take_app_length.
Qed.

Lemma Hole_matcher n bef aft cap c :
  CompileSubpattern (itemNode (Hole n)) (mkState bef aft cap) c
  = match aft with
    | ch :: rest =>
        if notSlash ch then
          greedyRun notSlash
            (fun y => c (mkState (before y) (after y)
                           (<[n := Some (consumed (mkState bef aft cap) y)]> (captures y))))
            (ch :: bef) rest cap
        else None
    | [] => None
    end.
Proof.
  cbn [itemNode CompileSubpattern notSlashPlus groupsOf after].
  rewrite (RepeatMatcher_plus (classMatches true [ClassChar "/"])); [done|lia].
Qed.

Lemma runItems_sound its : ∀ x c z,
  runList (itemNode <$> its) x c = Some z →
  ∃ cs rest, length cs = holes its ∧ Forall segment cs ∧
    after x = fillItems its cs ++ rest ∧
    c (mkState (reverse (fillItems its cs) ++ before x) rest
         (capItems its cs (captures x))) = Some z.
Proof.
  induction its as [|[ch|n] its IH]; intros [bef aft cap] c z H.
  - exists [], aft. done.
  - rewrite fmap_cons in H. cbn [runList itemNode CompileSubpattern] in H.
    unfold CharacterSetMatcher in H; simpl in H.
    destruct aft as [|a rest]; [done|].
    destruct (Ascii.eqb_spec a ch) as [->|]; [|done].
    apply IH in H as (cs & rest' & Hlen & Hseg & Haft & Hc). simpl in *.
    exists cs, rest'. split_and!; [done|done|by rewrite Haft; destruct cs|].
    replace (fillItems (Lit ch :: its) cs) with (ch :: fillItems its cs) by by destruct cs.
    rewrite reverse_cons, <- app_assoc. simpl.
    replace (capItems (Lit ch :: its) cs cap) with (capItems its cs cap) by by destruct cs.
    done.
  - rewrite fmap_cons in H. cbn [runList] in H. rewrite Hole_matcher in H.
    destruct aft as [|a rest]; [done|].
    destruct (notSlash a) eqn:Ha; [|done].
    apply greedyRun_sound in H as (pre & rest1 & -> & Hpre & H).
    cbn [before after captures] in H.
    change (a :: pre ++ rest1) with ((a :: pre) ++ rest1) in H.
    rewrite consumed_app in H.
    apply IH in H as (cs & rest' & Hlen & Hseg & Haft & Hc). simpl in *.
    exists ((a :: pre) :: cs), rest'. split_and!.
    + simpl. by rewrite Hlen.
    + constructor; [|done]. split; [done|].
      apply Forall_notSlash. by constructor.
    + simpl. rewrite Haft, <- app_assoc. done.
    + simpl. rewrite reverse_cons, reverse_app, <- !app_assoc. done.
Qed.

Lemma runItems_complete its : ∀ cs rest x c,
  length cs = holes its → Forall segment cs →
  after x = fillItems its cs ++ rest →
  is_Some (c (mkState (reverse (fillItems its cs) ++ before x) rest
                (capItems its cs (captures x)))) →
  is_Some (runList (itemNode <$> its) x c).
Proof.
  induction its as [|[ch|n] its IH]; intros cs rest [bef aft cap] c Hlen Hseg Haft Hc.
  - simpl in *. subst. done.
  - rewrite fmap_cons. cbn [runList itemNode CompileSubpattern].
    unfold CharacterSetMatcher; simpl.
    replace (fillItems (Lit ch :: its) cs) with (ch :: fillItems its cs) in * by by destruct cs.
    replace (capItems (Lit ch :: its) cs cap) with (capItems its cs cap) in * by by destruct cs.
    simpl in Haft. subst aft. rewrite Ascii.eqb_refl.
    apply (IH cs rest); [done|done|done|]. simpl.
    rewrite reverse_cons, <- app_assoc in Hc. done.
  - rewrite fmap_cons. cbn [runList]. rewrite Hole_matcher.
    destruct cs as [|c1 cs]; [simpl in Hlen; lia|]. simpl in Hlen, Haft, Hc.
    inversion Hseg as [|?? [Hne Hns] Hseg']; subst.
    destruct c1 as [|a pre]; [done|].
    simpl. apply Forall_notSlash in Hns. inversion Hns as [|?? Ha Hpre]; subst.
    rewrite Ha.
    rewrite <- (app_assoc pre).
    apply greedyRun_complete; [done|].
    cbn [before after captures].
    change (a :: pre ++ fillItems its cs ++ rest) with ((a :: pre) ++ (fillItems its cs ++ rest)).
    rewrite consumed_app.
    apply (IH cs rest); [lia|done|done|]. simpl.
    rewrite reverse_app, reverse_cons, <- !app_assoc in Hc. done.
Qed.

(** *** The pattern of a plain template *)

Ltac by_cases_on_ascii c :=
  destruct c as [[] [] [] [] [] [] [] []]; try reflexivity; try discriminate.

Lemma parseTerm_plain fuel c rest n :
  isExtendedPatternCharacter c = true → c ≠ "{" →
  parseTerm (S fuel) (c :: rest) n = quantify (Char c) rest n.
Proof.
  intros Hc Hb. revert Hc Hb. by_cases_on_ascii c. congruence.
Qed.

Lemma parseTerm_brace fuel rest n :
  parseBraces rest = None →
  parseTerm (S fuel) ("{" :: rest) n = quantify (Char "{") rest n.
Proof. intros H. cbn [parseTerm]. by rewrite H. Qed.

Lemma parseAlternative_step fuel c rest n acc :
  c ≠ "|" → c ≠ ")" →
  parseAlternative (S fuel) (c :: rest) n acc
  = '(t, r1, n1) ← parseTerm fuel (c :: rest) n; parseAlternative fuel r1 n1 (Seq acc t).
Proof.
  intros H1 H2.
  destruct c as [[] [] [] [] [] [] [] []]; try reflexivity; congruence.
Qed.

Lemma parseQuantifier_none s :
  noQuantifier s = true → parseQuantifier s = Normal (None, s).
Proof.
  destruct s as [|c rest]; [done|]. cbn [noQuantifier].
  intros [Hc Hb]%andb_true_iff.
  destruct (Ascii.eqb_spec c "{") as [->|Hne].
  - cbn [negb orb] in Hb. cbn [parseQuantifier]. by destruct (parseBraces rest).
  - clear Hb. revert Hc Hne. by_cases_on_ascii c. congruence.
Qed.

Lemma quantify_none a s n :
  noQuantifier s = true → quantify a s n = Normal (a, s, n).
Proof. intros H. unfold quantify. by rewrite parseQuantifier_none. Qed.

Lemma noBracedQuantifier_app pre src :
  noBracedQuantifier (pre ++ src) → noBracedQuantifier src.
Proof.
  intros H pre' post ->. apply (H (pre ++ pre')). by rewrite <- app_assoc.
Qed.

Lemma plainItems_next n its :
  plainItems n its → noBracedQuantifier (itemsSource its ++ lit "$") →
  noQuantifier (itemsSource its ++ lit "$") = true.
Proof.
  destruct its as [|[c|k] its]; [done| |done].
  intros [Hc _] Hbr.
  change (itemsSource (Lit c :: its) ++ lit "$") with (c :: (itemsSource its ++ lit "$")) in *.
  cbn [noQuantifier]. apply andb_true_iff. split.
  - revert Hc. by_cases_on_ascii c.
  - destruct (Ascii.eqb_spec c "{") as [->|]; [|done].
    by rewrite (Hbr [] _ eq_refl).
Qed.

Lemma parseDisjunction_hole fuel rest m :
  parseDisjunction (S (S (S fuel))) (lit "[^/]+)" ++ rest) m
  = Normal (Seq Empty notSlashPlus, ")" :: rest, m).
Proof. reflexivity. Qed.

Lemma parseTerm_hole fuel rest n :
  noQuantifier rest = true →
  parseTerm (S (S (S (S fuel)))) (lit "([^/]+)" ++ rest) n
  = Normal (Group n (Seq Empty notSlashPlus), rest, S n).
Proof.
  intros Hq.
  change (parseTerm (S (S (S (S fuel)))) (lit "([^/]+)" ++ rest) n)
    with ('(d, r1, n1) ← parseDisjunction (S (S (S fuel))) (lit "[^/]+)" ++ rest) (S n);
          r2 ← closeGroup r1; quantify (Group n d) r2 n1).
  rewrite parseDisjunction_hole. cbn [mbind Completion_bind closeGroup].
  by rewrite quantify_none.
Qed.

Lemma parseAlternative_items its : ∀ fuel n acc,
  plainItems n its → noBracedQuantifier (itemsSource its ++ lit "$") →
  length its + 5 ≤ fuel →
  parseAlternative fuel (itemsSource its ++ lit "$") n acc
  = Normal (Seq (foldl Seq acc (itemNode <$> its)) AssertEnd, [], n + holes its).
Proof.
  induction its as [|[c|k] its IH]; intros fuel n acc Hp Hbr Hf.
  - do 2 (destruct fuel as [|fuel]; [simpl in Hf; lia|]).
    simpl. by rewrite Nat.add_0_r.
  - destruct Hp as [Hc Hp]. simpl in Hf.
    do 2 (destruct fuel as [|fuel]; [lia|]).
    change (itemsSource (Lit c :: its) ++ lit "$")
      with (c :: (itemsSource its ++ lit "$")) in *.
    assert (Hbr' : noBracedQuantifier (itemsSource its ++ lit "$"))
      by exact (noBracedQuantifier_app [c] _ Hbr).
    rewrite parseAlternative_step.
    2,3: intros ->; done.
    destruct (decide (c = "{")) as [->|Hne].
    + rewrite parseTerm_brace by exact (Hbr [] _ eq_refl).
      rewrite quantify_none by eauto using plainItems_next.
      cbn [mbind Completion_bind]. rewrite IH by (done || lia). done.
    + rewrite parseTerm_plain by done.
      rewrite quantify_none by eauto using plainItems_next.
      cbn [mbind Completion_bind]. rewrite IH by (done || lia). done.
  - destruct Hp as [-> Hp]. simpl in Hf.
    do 5 (destruct fuel as [|fuel]; [lia|]).
    change (itemsSource (Hole n :: its) ++ lit "$")
      with ("(" :: (lit "[^/]+)" ++ (itemsSource its ++ lit "$"))) in *.
    assert (Hbr' : noBracedQuantifier (itemsSource its ++ lit "$"))
      by exact (noBracedQuantifier_app (lit "([^/]+)") _ Hbr).
    rewrite parseAlternative_step by done.
    change ("(" :: (lit "[^/]+)" ++ (itemsSource its ++ lit "$")))
      with (lit "([^/]+)" ++ (itemsSource its ++ lit "$")).
    rewrite parseTerm_hole by eauto using plainItems_next.
    cbn [mbind Completion_bind]. rewrite IH by (done || lia). simpl.
    do 2 f_equal. lia.
Qed.

(** *** What [PARAM_MATCHER] recognises *)

Section Span.
Context (p : ascii -> bool).

Lemma span_app s : (span p s).1 ++ (span p s).2 = s.
Proof.
  induction s as [|ch s IH]; simpl; [done|].
  destruct (p ch); [|done]. destruct (span p s). simpl in *. by rewrite IH.
Qed.

Lemma span_Forall s : Forall (fun ch => p ch = true) (span p s).1.
Proof.
  induction s as [|ch s IH]; simpl; [done|].
  destruct (p ch) eqn:Hp; [|done]. destruct (span p s). simpl in *. by constructor.
Qed.

Lemma span_run run b rest :
  Forall (fun ch => p ch = true) run → p b = false →
  span p (run ++ b :: rest) = (run, b :: rest).
Proof.
  induction 1 as [|ch run Hp _ IH]; intros Hb; simpl.
  - by rewrite Hb.
  - by rewrite Hp, IH.
Qed.

Lemma span_ext q s : (∀ c, p c = q c) → span p s = span q s.
Proof.
  intros Hpq. induction s as [|ch s IH]; simpl; [done|].
  by rewrite <- Hpq, IH.
Qed.

End Span.

Lemma braceClass c : classMatches true [ClassChar "{"; ClassChar "}"] c = notBrace c.
Proof. unfold classMatches, notBrace, isBrace. simpl. by rewrite orb_false_r. Qed.

Lemma placeholderAt_Some aft name rest :
  placeholderAt aft = Some (name, rest) → aft = placeholder name ++ rest ∧ isName name.
Proof.
  unfold placeholderAt. destruct aft as [|a s]; [done|].
  destruct (Ascii.eqb_spec a "{") as [->|]; [|done].
  pose proof (span_app (fun c => negb (isBrace c)) s) as Happ.
  pose proof (span_Forall (fun c => negb (isBrace c)) s) as Hall.
  destruct (span _ s) as [[|n0 n] [|b r]]; try done. cbn [fst snd] in *.
  destruct (Ascii.eqb_spec b "}") as [->|]; [|done].
  intros [= <- <-]. split.
  - unfold placeholder. simpl. rewrite <- Happ, <- app_assoc. done.
  - split; [done|]. eapply list.Forall_impl; [exact Hall|].
    intros c Hc. simpl in Hc. by apply negb_true_iff in Hc.
Qed.

Lemma placeholderAt_placeholder name rest :
  isName name → placeholderAt (placeholder name ++ rest) = Some (name, rest).
Proof.
  intros [Hne Hall]. unfold placeholder, placeholderAt. simpl.
  rewrite <- app_assoc. simpl. rewrite span_run.
  - destruct name; done.
  - eapply list.Forall_impl; [exact Hall|]. intros c Hc. simpl. by rewrite Hc.
  - done.
Qed.

Lemma matchAt_PARAM bef aft :
  matchAt PARAM_MATCHER bef aft
  = match placeholderAt aft with
    | Some (name, rest) =>
        Some (mkState (reverse (placeholder name) ++ bef) rest [Some name])
    | None => None
    end.
Proof.
  unfold matchAt, placeholderAt. cbn [PARAM_MATCHER pattern nCaptures replicate].
  cbn [CompileSubpattern groupsOf]. unfold CharacterSetMatcher at 1. cbn [after before captures].
  destruct aft as [|a s]; [done|].
  destruct (Ascii.eqb_spec a "{") as [->|]; [|done].
  rewrite (RepeatMatcher_plus (classMatches true [ClassChar "{"; ClassChar "}"])) by lia.
  rewrite (span_ext _ (classMatches true [ClassChar "{"; ClassChar "}"]))
    by (intros; by rewrite braceClass).
  set (p := classMatches true [ClassChar "{"; ClassChar "}"]).
  destruct s as [|ch s]; [done|]. simpl. destruct (p ch) eqn:Hp; [|done].
  rewrite greedyRun_maximal.
  2:{ intros bef' ch' rest' Hp'. unfold CharacterSetMatcher. simpl.
      destruct (Ascii.eqb_spec ch' "}") as [->|]; [|done]. done. }
  pose proof (span_app p s) as Happ.
  destruct (span p s) as [run tl] eqn:Hs. simpl in Happ. cbn [fst snd before after captures].
  rewrite <- Happ at 1.
  change ("{" :: bef) with (["{"] ++ bef).
  change (ch :: run ++ tl) with ((ch :: run) ++ tl).
  rewrite consumed_app.
  unfold CharacterSetMatcher. cbn [after before captures].
  destruct tl as [|b rest]; [done|].
  destruct (Ascii.eqb_spec b "}") as [->|]; [|done]. do 2 f_equal.
  change (placeholder (ch :: run)) with ("{" :: ch :: run ++ ["}"]).
  rewrite !reverse_cons, reverse_app, <- !app_assoc. done.
Qed.

Lemma search_PARAM aft : ∀ bef,
  search PARAM_MATCHER bef aft
  = match findPlaceholder aft with
    | Some (sk, name, rest) =>
        Some (mkResult sk (placeholder name) [Some name]
                (mkState (reverse (sk ++ placeholder name) ++ bef) rest [Some name]))
    | None => None
    end.
Proof.
  induction aft as [|ch aft IH]; intros bef.
  - cbn [search findPlaceholder]. rewrite matchAt_PARAM. done.
  - cbn [search findPlaceholder]. rewrite matchAt_PARAM.
    destruct (placeholderAt (ch :: aft)) as [[name rest]|] eqn:Hp.
    + apply placeholderAt_Some in Hp as [Hp _]. cbn [after captures].
      rewrite Hp, length_app.
      replace (length (placeholder name) + length rest - length rest)
        with (length (placeholder name)) by lia.
      by rewrite take_app_length.
    + rewrite IH. destruct (findPlaceholder aft) as [[[sk name] rest]|]; [|done].
      cbn [skipped matched groups final]. do 3 f_equal.
      change ((ch :: sk) ++ placeholder name) with (ch :: (sk ++ placeholder name)).
      by rewrite reverse_cons, <- app_assoc.
Qed.

Lemma findPlaceholder_Some aft : ∀ sk name rest,
  findPlaceholder aft = Some (sk, name, rest) →
  aft = sk ++ placeholder name ++ rest ∧ isName name ∧ ¬ hasPlaceholder sk.
Proof.
  induction aft as [|ch aft IH]; intros sk name rest; cbn [findPlaceholder].
  - done.
  - destruct (placeholderAt (ch :: aft)) as [[name' rest']|] eqn:Hp.
    + intros [= <- <- <-]. apply placeholderAt_Some in Hp as [-> Hn].
      split_and!; [done|done|]. intros (pre & n & post & Heq & _).
      by destruct pre.
    + destruct (findPlaceholder aft) as [[[sk' name'] rest']|] eqn:Hf; [|done].
      intros [= <- <- <-]. destruct (IH _ _ _ eq_refl) as (-> & Hn & Hsk).
      split_and!; [done|done|]. intros (pre & n & post & Heq & Hn').
      destruct pre as [|c pre].
      * rewrite app_nil_l in Heq.
        rewrite app_comm_cons, Heq, <- !app_assoc, placeholderAt_placeholder in Hp; done.
      * injection Heq as -> ->. apply Hsk. by exists pre, n, post.
Qed.

Lemma findPlaceholder_None aft :
  findPlaceholder aft = None → ¬ hasPlaceholder aft.
Proof.
  induction aft as [|ch aft IH]; cbn [findPlaceholder].
  - intros _ (pre & n & post & Heq & _). by destruct pre.
  - destruct (placeholderAt (ch :: aft)) as [[name' rest']|] eqn:Hp; [done|].
    destruct (findPlaceholder aft) as [[[sk' name'] rest']|] eqn:Hf; [done|].
    intros _ (pre & n & post & Heq & Hn).
    destruct pre as [|c pre].
    + rewrite app_nil_l in Heq. rewrite Heq, placeholderAt_placeholder in Hp; done.
    + injection Heq as -> ->. apply IH; [done|]. by exists pre, n, post.
Qed.

Lemma slice_placeholder name : slice (placeholder name) 1 (-1) = name.
Proof.
  unfold slice, placeholder, clampIndex. simpl.
  rewrite length_app, Nat.add_1_r. simpl.
  replace (Z.to_nat (Z.max (Z.of_nat (S (S (length name))) + -1) 0))
    with (S (length name)) by lia.
  rewrite Nat.sub_succ, Nat.sub_0_r. simpl. rewrite drop_0. by rewrite take_app_length.
Qed.

(** The cut of a template by [PARAM_MATCHER]. *)
Lemma matchAll_PARAM fuel : ∀ bef aft rs tl,
  length aft < fuel →
  matchAll fuel PARAM_MATCHER [] bef aft = (rs, tl) →
  ∃ ns, (fun gr : jsstring * MatchResult => matched gr.2) <$> rs = placeholder <$> ns ∧
        Forall isName ns ∧
        aft = fill rs.*1 tl (placeholder <$> ns) ∧
        Forall (fun g => ¬ hasPlaceholder g) (rs.*1 ++ [tl]).
Proof.
  induction fuel as [|fuel IH]; intros bef aft rs tl Hf; [lia|].
  cbn [matchAll]. rewrite search_PARAM.
  destruct (findPlaceholder aft) as [[[sk name] rest]|] eqn:Hfind.
  - apply findPlaceholder_Some in Hfind as (-> & Hn & Hsk).
    cbn [matched skipped final before after].
    change (placeholder name) with ("{" :: name ++ lit "}") at 1.
    cbv iota match beta.
    destruct (matchAll fuel _ _ _ rest) as [rs' tl'] eqn:Hrec.
    intros [= <- <-].
    apply IH in Hrec as (ns & Hm & Hns & -> & Hgaps).
    2:{ rewrite !length_app in Hf. unfold placeholder in Hf. simpl in Hf. lia. }
    exists (name :: ns). split_and!.
    + rewrite !fmap_cons. by rewrite Hm.
    + by constructor.
    + rewrite !fmap_cons. cbn [fill fst]. done.
    + rewrite fmap_cons. by constructor.
  - intros [= <- <-]. exists []. split_and!; try done.
    simpl. constructor; [|done]. by apply findPlaceholder_None.
Qed.

(** *** The cut of a template *)

Lemma scan_spec f :
  (fun gr : jsstring * MatchResult => matched gr.2) <$> (scan f).1 = placeholder <$> names f ∧
  Forall isName (names f) ∧
  f = fill (gaps f) (trailing f) (placeholder <$> names f) ∧
  Forall (fun g => ¬ hasPlaceholder g) (gaps f ++ [trailing f]).
Proof.
  unfold names, gaps, trailing, scan.
  destruct (matchAll _ _ _ _ f) as [rs tl] eqn:Hscan.
  apply matchAll_PARAM in Hscan as (ns & Hm & Hns & Hf & Hg); [|lia].
  cbn [fst snd].
  assert (Hnames : (fun gr : jsstring * MatchResult => slice (matched gr.2) 1 (-1)) <$> rs = ns).
  { change (fun gr : jsstring * MatchResult => slice (matched gr.2) 1 (-1))
      with ((fun s => slice s 1 (-1)) ∘ (fun gr : jsstring * MatchResult => matched gr.2)).
    rewrite list_fmap_compose, Hm, <- list_fmap_compose.
    rewrite <- (list_fmap_id ns) at 2. apply list_fmap_ext.
    intros _ n _. simpl. apply slice_placeholder. }
  rewrite Hnames. done.
Qed.

Lemma length_gaps f : length (gaps f) = length (names f).
Proof. unfold gaps, names. by rewrite !length_fmap. Qed.

(** *** The constructor *)

Lemma substitute_ctor rs : ∀ tl st,
  substitute
    (fun matchedParam (paramNames : list jsstring) =>
       let paramName := slice matchedParam 1 (-1) in
       Normal (PARAM_REGEX_STRING, paramNames ++ [paramName]))
    rs tl st
  = Normal (fill rs.*1 tl (replicate (length rs) PARAM_REGEX_STRING), st ++ (nameOf <$> rs)).
Proof.
  induction rs as [|[g r] rs IH]; intros tl st; cbn [substitute].
  - by rewrite app_nil_r.
  - cbn [mbind Completion_bind]. rewrite IH. cbn [mbind Completion_bind].
    rewrite <- app_assoc. done.
Qed.

Lemma new_eq f :
  new f =
    (regex ← RegExp_new (lit "^" ++ regexSource f ++ lit "$");
     Normal (mkRoute f (names f) (bool_decide (length (names f) = 0)) regex)).
Proof.
  unfold new, replaceAll, regexSource, names, gaps, trailing, scan.
  destruct (matchAll _ _ _ _ f) as [rs tl]. rewrite substitute_ctor.
  cbn [mbind Completion_bind fst snd app]. by rewrite (length_fmap fst).
Qed.

Lemma new_inv f r :
  new f = Normal r →
  format r = f ∧ paramNames r = names f ∧
  isStatic r = bool_decide (length (names f) = 0) ∧
  RegExp_new (lit "^" ++ regexSource f ++ lit "$") = Normal (regex r).
Proof.
  rewrite new_eq. destruct (RegExp_new _) as [re| |]; try done.
  cbn [mbind Completion_bind]. by intros [= <-].
Qed.

(** *** [compile] *)

Lemma compileReplacer_truthy params f m u :
  truthy (Get params (slice m 1 (-1))) = true →
  compileReplacer params f m u = Normal (ToString (Get params (slice m 1 (-1))), tt).
Proof. intros H. unfold compileReplacer. by rewrite H. Qed.

Lemma compileReplacer_falsy params f m u :
  truthy (Get params (slice m 1 (-1))) = false →
  compileReplacer params f m u = Throw (missing f (slice m 1 (-1))).
Proof. intros H. unfold compileReplacer. by rewrite H. Qed.

Lemma substitute_compile_ok params f rs tl :
  Forall (fun n => truthy (Get params n) = true) (nameOf <$> rs) →
  substitute (compileReplacer params f) rs tl tt
  = Normal (fill rs.*1 tl ((fun n => ToString (Get params n)) <$> (nameOf <$> rs)), tt).
Proof.
  induction rs as [|[g r] rs IH]; intros Hall; cbn [substitute]; [done|].
  rewrite fmap_cons in Hall. inversion Hall as [|?? Ht Hall']; subst.
  rewrite compileReplacer_truthy by done.
  cbn [mbind Completion_bind]. rewrite IH by done. done.
Qed.

Lemma substitute_compile_missing params f rs tl pre n post :
  nameOf <$> rs = pre ++ n :: post →
  Forall (fun n => truthy (Get params n) = true) pre →
  truthy (Get params n) = false →
  substitute (compileReplacer params f) rs tl tt = Throw (missing f n).
Proof.
  revert pre. induction rs as [|[g r] rs IH]; intros pre Heq Hpre Hn.
  - by destruct pre.
  - rewrite fmap_cons in Heq. cbn [substitute].
    destruct pre as [|n0 pre]; cbn [app] in Heq; injection Heq as Hr Heq.
    + unfold nameOf in Hr. cbn [snd] in Hr. subst n.
      by rewrite compileReplacer_falsy.
    + inversion Hpre as [|?? Ht Hpre']; subst.
      rewrite compileReplacer_truthy by done.
      cbn [mbind Completion_bind]. by rewrite (IH pre).
Qed.

Lemma compile_dynamic f r params :
  new f = Normal r → names f ≠ [] →
  Forall (fun n => truthy (Get params n) = true) (names f) →
  compile r (Some params)
  = Normal (fill (gaps f) (trailing f) ((fun n => ToString (Get params n)) <$> names f)).
Proof.
  intros Hnew Hne Hall.
  apply new_inv in Hnew as (Hf & Hp & Hs & _).
  unfold compile. rewrite Hs, Hf.
  rewrite bool_decide_eq_false_2 by (by destruct (names f)).
  unfold replaceAll. unfold names, gaps, trailing, scan in *.
  destruct (matchAll _ _ _ _ f) as [rs tl]. cbn [fst snd] in *.
  change (substitute _ rs tl tt) with (substitute (compileReplacer params f) rs tl tt).
  rewrite substitute_compile_ok by done. done.
Qed.

Lemma compile_missing f r params pre n post :
  new f = Normal r →
  names f = pre ++ n :: post →
  Forall (fun n => truthy (Get params n) = true) pre →
  truthy (Get params n) = false →
  compile r (Some params) = Throw (missing f n).
Proof.
  intros Hnew Heq Hpre Hn.
  apply new_inv in Hnew as (Hf & Hp & Hs & _).
  unfold compile. rewrite Hs, Hf.
  rewrite bool_decide_eq_false_2 by (rewrite Heq, length_app; simpl; lia).
  unfold replaceAll. unfold names, scan in *.
  destruct (matchAll _ _ _ _ f) as [rs tl]. cbn [fst snd] in *.
  change (substitute _ rs tl tt) with (substitute (compileReplacer params f) rs tl tt).
  by rewrite (substitute_compile_missing params f rs tl pre n post).
Qed.

(** *** The regular expression of a plain template *)

Lemma itemsSource_app its1 its2 :
  itemsSource (its1 ++ its2) = itemsSource its1 ++ itemsSource its2.
Proof. unfold itemsSource. by rewrite fmap_app, concat_app. Qed.

Lemma itemsSource_Lit s : itemsSource (Lit <$> s) = s.
Proof.
  induction s as [|c s IH]; [done|].
  change (itemsSource (Lit <$> c :: s)) with (c :: itemsSource (Lit <$> s)).
  by rewrite IH.
Qed.

Lemma itemsSource_itemsFrom gs tl : ∀ n,
  itemsSource (itemsFrom n gs tl) = fill gs tl (replicate (length gs) PARAM_REGEX_STRING).
Proof.
  induction gs as [|g gs IH]; intros n; simpl.
  - apply itemsSource_Lit.
  - rewrite itemsSource_app, itemsSource_Lit.
    change (Hole n :: itemsFrom (S n) gs tl) with ([Hole n] ++ itemsFrom (S n) gs tl).
    rewrite itemsSource_app, IH. done.
Qed.

Lemma plainItems_app n its1 its2 :
  holes its1 = 0 → plainItems n its1 → plainItems n its2 → plainItems n (its1 ++ its2).
Proof.
  induction its1 as [|[c|k] its1 IH]; simpl; [done| |done].
  intros Hh [Hc Hp] Hp2. split; [done|]. by apply IH.
Qed.

Lemma plainItems_Lit n s :
  forallb isExtendedPatternCharacter s = true → plainItems n (Lit <$> s).
Proof.
  induction s as [|c s IH]; simpl; [done|]. intros [Hc Hs]%andb_true_iff.
  split; [done|by apply IH].
Qed.

Lemma holes_Lit s : holes (Lit <$> s) = 0.
Proof. by induction s. Qed.

Lemma holes_app its1 its2 : holes (its1 ++ its2) = holes its1 + holes its2.
Proof. induction its1 as [|[c|k] its1 IH]; simpl; [done|done|by rewrite IH]. Qed.

Lemma plainItems_itemsFrom gs tl : ∀ n,
  forallb (forallb isExtendedPatternCharacter) (gs ++ [tl]) = true →
  plainItems n (itemsFrom n gs tl).
Proof.
  induction gs as [|g gs IH]; intros n; simpl.
  - rewrite andb_true_r. apply plainItems_Lit.
  - intros [Hg Hrest]%andb_true_iff.
    apply plainItems_app; [apply holes_Lit|by apply plainItems_Lit|].
    split; [done|]. by apply IH.
Qed.

Lemma holes_itemsFrom gs tl : ∀ n, holes (itemsFrom n gs tl) = length gs.
Proof.
  induction gs as [|g gs IH]; intros n; simpl; [apply holes_Lit|].
  rewrite holes_app, holes_Lit. simpl. by rewrite IH.
Qed.

Lemma length_itemsSource its : length its ≤ length (itemsSource its).
Proof.
  induction its as [|[c|k] its IH]; [done| |].
  - change (itemsSource (Lit c :: its)) with (c :: itemsSource its). simpl. lia.
  - change (itemsSource (Hole k :: its)) with (PARAM_REGEX_STRING ++ itemsSource its).
    rewrite length_app. simpl. lia.
Qed.

(** *** No braced quantifier in the pattern of a template *)

Lemma digit_not_special c :
  isDigit c = true → isBrace c = false ∧ c ≠ "(" ∧ c ≠ "[" ∧ c ≠ "^" ∧ c ≠ "/" ∧
                     c ≠ "]" ∧ c ≠ "+" ∧ c ≠ ")" ∧ c ≠ "$".
Proof. by_cases_on_ascii c; intros _; repeat split; discriminate. Qed.

Lemma digits_body ds :
  Forall (fun ch => isDigit ch = true) ds →
  Forall (fun c => isBrace c = false ∧ c ∉ lit "([^/]+)$") ds.
Proof.
  intros H. eapply list.Forall_impl; [exact H|]. intros c Hc. simpl in Hc.
  destruct (digit_not_special c Hc) as (Hb & H1 & H2 & H3 & H4 & H5 & H6 & H7 & H8).
  split; [done|]. unfold lit. simpl. rewrite !elem_of_cons, elem_of_nil. intuition.
Qed.

Lemma parseBraces_Some s q :
  parseBraces s = Some q →
  ∃ body rest, s = body ++ "}" :: rest ∧ quantifierBody body.
Proof.
  unfold parseBraces.
  pose proof (span_app isDigit s) as Happ. pose proof (span_Forall isDigit s) as Hds.
  destruct (span isDigit s) as [ds1 r1]. cbn [fst snd] in *.
  destruct ds1 as [|d ds1]; [done|]. destruct r1 as [|b rest]; [done|].
  destruct (Ascii.eqb_spec b "}") as [->|_].
  - intros _. exists (d :: ds1), rest. split; [done|]. split; [done|].
    by apply digits_body.
  - destruct (Ascii.eqb_spec b ",") as [->|_]; [|done].
    pose proof (span_app isDigit rest) as Happ2.
    pose proof (span_Forall isDigit rest) as Hds2.
    destruct (span isDigit rest) as [ds2 r3]. cbn [fst snd] in *.
    destruct r3 as [|b' rest']; [done|].
    destruct (Ascii.eqb_spec b' "}") as [->|_]; [|done].
    intros _. exists ((d :: ds1) ++ "," :: ds2), rest'. split.
    + rewrite <- Happ, <- Happ2, <- !app_assoc. done.
    + split; [done|]. apply Forall_app. split; [by apply digits_body|].
      constructor; [|by apply digits_body].
      split; [done|]. by_evaluation.
Qed.

(** A word without [c] that occurs in [l1 ++ c :: l2] occurs in [l1] or in [l2]. *)
Lemma word_in_block (w : jsstring) c : ∀ pre l1 l2 post,
  l1 ++ c :: l2 = pre ++ w ++ post → c ∉ w →
  (∃ post1, l1 = pre ++ w ++ post1) ∨ (∃ pre2, l2 = pre2 ++ w ++ post).
Proof.
  assert (Hprefix : ∀ (w l1 : jsstring) l2 post,
            l1 ++ c :: l2 = w ++ post → c ∉ w → ∃ post1, l1 = w ++ post1).
  { clear w. induction w as [|a w IH]; intros l1 l2 post Heq Hc.
    - by exists l1.
    - destruct l1 as [|b l1]; simpl in Heq; injection Heq as -> Heq.
      + exfalso. apply Hc. by left.
      + destruct (IH l1 l2 post Heq) as [post1 ->].
        * intros ?. apply Hc. by right.
        * by exists post1. }
  induction pre as [|p pre IH]; intros l1 l2 post Heq Hc.
  - left. by apply (Hprefix w l1 l2 post).
  - destruct l1 as [|b l1]; simpl in Heq; injection Heq as -> Heq.
    + right. by exists pre.
    + destruct (IH l1 l2 post Heq Hc) as [[post1 ->]|[pre2 ->]].
      * left. by exists post1.
      * right. by exists pre2.
Qed.

(** A non-empty word that shares no code unit with [seps] and occurs in
    [seps ++ rest] occurs in [rest]. *)
Lemma word_after_seps (w : jsstring) seps : ∀ pre rest post,
  w ≠ [] → Forall (fun c => c ∉ w) seps →
  seps ++ rest = pre ++ w ++ post →
  ∃ pre2, rest = pre2 ++ w ++ post.
Proof.
  induction seps as [|c seps IH]; intros pre rest post Hw Hseps Heq.
  - by exists pre.
  - inversion Hseps as [|?? Hc Hseps']; subst.
    destruct (word_in_block w c pre [] (seps ++ rest) post Heq Hc) as [[post1 H]|[pre2 H]].
    + destruct pre, w; done.
    + by apply (IH pre2).
Qed.

Lemma word_in_fill (w : jsstring) gs tl : ∀ pre post,
  w ≠ [] → (∀ c, c ∈ lit "([^/]+)$" → c ∉ w) →
  fill gs tl (replicate (length gs) PARAM_REGEX_STRING) ++ lit "$" = pre ++ w ++ post →
  Exists (fun g => ∃ a b, g = a ++ w ++ b) (gs ++ [tl]).
Proof.
  assert (Hin : ∀ c, c ∈ lit "[^/]+)" → c ∈ lit "([^/]+)$").
  { intros c Hc. change (lit "([^/]+)$") with (lit "(" ++ lit "[^/]+)" ++ lit "$").
    rewrite !elem_of_app. right. by left. }
  induction gs as [|g gs IH]; intros pre post Hw Hseps Heq.
  - simpl in Heq. apply Exists_cons_hd.
    assert (Hd : "$" ∉ w) by (apply Hseps; by_evaluation).
    destruct (word_in_block w "$" pre tl [] post Heq Hd) as [[post1 ->]|[pre2 H]].
    + by exists pre, post1.
    + destruct pre2, w; done.
  - cbn [length replicate fill] in Heq. rewrite <- !app_assoc in Heq.
    assert (Hopen : "(" ∉ w) by (apply Hseps; by_evaluation).
    change (PARAM_REGEX_STRING ++ ?x) with ("(" :: (lit "[^/]+)" ++ x)) in Heq.
    destruct (word_in_block w "(" pre g _ post Heq Hopen) as [[post1 ->]|[pre2 H]].
    + apply Exists_cons_hd. by exists pre, post1.
    + apply Exists_cons_tl.
      apply (word_after_seps w (lit "[^/]+)")) in H as [pre3 H]; [|done|].
      * apply (IH pre3 post); [done|done|]. by rewrite H.
      * apply list.Forall_forall. intros c Hc. by apply Hseps, Hin.
Qed.

Lemma noBracedQuantifier_source f :
  noBracedQuantifier (regexSource f ++ lit "$").
Proof.
  intros pre post Heq.
  destruct (parseBraces post) as [q|] eqn:Hq; [|done]. exfalso.
  apply parseBraces_Some in Hq as (body & rest & -> & Hne & Hbody).
  destruct (scan_spec f) as (_ & _ & _ & Hgaps).
  unfold regexSource in Heq.
  replace ("{" :: body ++ "}" :: rest) with (placeholder body ++ rest) in Heq
    by (unfold placeholder; simpl; by rewrite <- app_assoc).
  apply word_in_fill in Heq.
  - apply list.Exists_exists in Heq as (g & Hg & a & b & ->).
    rewrite list.Forall_forall in Hgaps. apply (Hgaps _ Hg).
    exists a, body, b. split; [done|]. split; [done|].
    eapply list.Forall_impl; [exact Hbody|]. by intros c [Hc _].
  - done.
  - intros c Hc Hw. unfold placeholder in Hw.
    rewrite !elem_of_app in Hw. destruct Hw as [Hw|[Hw|Hw]].
    + apply list_elem_of_singleton in Hw as ->. revert Hc. by_evaluation.
    + rewrite list.Forall_forall in Hbody. by destruct (Hbody c Hw).
    + apply list_elem_of_singleton in Hw as ->. revert Hc. by_evaluation.
Qed.

Lemma RegExp_new_plain f :
  plain f = true →
  RegExp_new (lit "^" ++ regexSource f ++ lit "$")
  = Normal (mkRegExp (templateNode (gaps f) (trailing f)) (length (gaps f))).
Proof.
  intros Hplain. unfold RegExp_new, parsePattern, regexSource.
  rewrite <- (itemsSource_itemsFrom _ _ 0).
  set (its := itemsFrom 0 (gaps f) (trailing f)).
  assert (Hits : plainItems 0 its) by by apply plainItems_itemsFrom.
  assert (Hbr : noBracedQuantifier (itemsSource its ++ lit "$")).
  { unfold its. rewrite itemsSource_itemsFrom. apply noBracedQuantifier_source. }
  pose proof (length_itemsSource its) as Hlen.
  set (src := itemsSource its ++ lit "$") in *.
  change (lit "^" ++ src) with ("^" :: src).
  assert (Hsrc : length its < length src).
  { unfold src. rewrite length_app. simpl. lia. }
  replace (3 * length ("^" :: src) + 3) with (S (S (S (3 * length src + 3))))
    by (simpl; lia).
  change (parseDisjunction (S (S (S (3 * length src + 3)))) ("^" :: src) 0)
    with ('(a, r1, n1) ← parseAlternative (S (S (3 * length src + 3))) ("^" :: src) 0 Empty;
          match r1 with
          | "|" :: r2 =>
              '(b, r3, n3) ← parseDisjunction (S (S (3 * length src + 3))) r2 n1;
              Normal (Disjunction a b, r3, n3)
          | _ => Normal (a, r1, n1)
          end).
  rewrite parseAlternative_step by done.
  change (parseTerm (S (3 * length src + 3)) ("^" :: src) 0)
    with (Normal (AssertStart, src, 0) : Completion (Node * jsstring * nat)).
  cbn [mbind Completion_bind].
  subst src. rewrite parseAlternative_items by (done || lia).
  cbn [mbind Completion_bind]. unfold templateNode, its.
  by rewrite holes_itemsFrom.
Qed.

(** *** Running the regular expression of a plain template *)

Lemma CompileSubpattern_foldl ns : ∀ acc x c,
  CompileSubpattern (foldl Seq acc ns) x c
  = CompileSubpattern acc x (fun y => runList ns y c).
Proof.
  induction ns as [|n ns IH]; intros acc x c; simpl; [done|].
  by rewrite IH.
Qed.

Lemma matchAt_template gs tl k bef aft :
  matchAt (mkRegExp (templateNode gs tl) k) bef aft
  = match bef with
    | [] => runList (itemNode <$> itemsFrom 0 gs tl)
              (mkState [] aft (replicate k None)) atEnd
    | _ :: _ => None
    end.
Proof.
  unfold matchAt, templateNode. cbn [pattern nCaptures].
  change (CompileSubpattern (Seq ?a AssertEnd) ?x Some)
    with (CompileSubpattern a x atEnd).
  rewrite CompileSubpattern_foldl. by destruct bef.
Qed.

Lemma search_after_start re aft : ∀ b bef,
  (∀ b bef' aft', matchAt re (b :: bef') aft' = None) →
  search re (b :: bef) aft = None.
Proof.
  induction aft as [|ch aft IH]; intros b bef H; simpl; rewrite H; [done|].
  by rewrite IH.
Qed.

Lemma search_anchored re s :
  (∀ b bef' aft', matchAt re (b :: bef') aft' = None) →
  search re [] s
  = match matchAt re [] s with
    | Some y => Some (mkResult [] (take (length s - length (after y)) s) (captures y) y)
    | None => None
    end.
Proof.
  intros H. destruct s as [|ch s]; simpl; [done|].
  destruct (matchAt re [] (ch :: s)); [done|]. by rewrite search_after_start.
Qed.

Lemma fillItems_Lit s cs its :
  fillItems ((Lit <$> s) ++ its) cs = s ++ fillItems its cs.
Proof.
  induction s as [|c s IH]; [done|].
  rewrite fmap_cons. cbn [app fillItems]. by rewrite IH.
Qed.

Lemma capItems_Lit s cs its cap :
  capItems ((Lit <$> s) ++ its) cs cap = capItems its cs cap.
Proof.
  induction s as [|c s IH]; [done|].
  rewrite fmap_cons. cbn [app capItems]. by rewrite IH.
Qed.

Lemma fillItems_itemsFrom gs tl : ∀ n cs,
  length cs = length gs → fillItems (itemsFrom n gs tl) cs = fill gs tl cs.
Proof.
  induction gs as [|g gs IH]; intros n cs Hlen; cbn [itemsFrom].
  - rewrite <- (app_nil_r (Lit <$> tl)), fillItems_Lit. simpl.
    destruct cs; by rewrite ?app_nil_r.
  - destruct cs as [|c cs]; [done|]. rewrite fillItems_Lit. simpl.
    rewrite IH by (simpl in Hlen; lia). done.
Qed.

Lemma capItems_itemsFrom gs tl : ∀ cs done,
  length cs = length gs →
  capItems (itemsFrom (length done) gs tl) cs (done ++ replicate (length gs) None)
  = done ++ (Some <$> cs).
Proof.
  induction gs as [|g gs IH]; intros cs done Hlen; cbn [itemsFrom].
  - rewrite <- (app_nil_r (Lit <$> tl)), capItems_Lit. by destruct cs.
  - destruct cs as [|c cs]; [done|]. rewrite capItems_Lit. simpl.
    rewrite insert_app_r_alt, Nat.sub_diag by done. cbn [insert list_insert].
    specialize (IH cs (done ++ [Some c])).
    rewrite length_app, Nat.add_1_r, <- !app_assoc in IH. simpl in IH.
    apply IH. simpl in Hlen. lia.
Qed.

Lemma exec_template_sound gs tl path m :
  exec (mkRegExp (templateNode gs tl) (length gs)) path = Some m →
  ∃ cs, length cs = length gs ∧ Forall segment cs ∧
        path = fill gs tl cs ∧ m = Some path :: (Some <$> cs).
Proof.
  unfold exec. rewrite search_anchored by (intros; by rewrite matchAt_template).
  rewrite matchAt_template.
  destruct (runList _ _ _) as [z|] eqn:Hrun; [|done].
  intros [= <-]. cbn [matched groups].
  apply runItems_sound in Hrun as (cs & rest & Hlen & Hseg & Haft & Hend).
  rewrite holes_itemsFrom in Hlen. cbn [after before captures] in *.
  unfold atEnd in Hend. cbn [after] in Hend. destruct rest as [|]; [|done].
  injection Hend as <-. cbn [after captures].
  rewrite app_nil_r in Haft. rewrite fillItems_itemsFrom in Haft by done.
  exists cs. split_and!; [done|done|done|].
  pose proof (capItems_itemsFrom gs tl cs [] Hlen) as Hcap.
  cbn [length app] in Hcap. rewrite Hcap.
  cbn [length]. rewrite Nat.sub_0_r, firstn_all. done.
Qed.

Lemma exec_template_complete gs tl cs :
  length cs = length gs → Forall segment cs →
  is_Some (exec (mkRegExp (templateNode gs tl) (length gs)) (fill gs tl cs)).
Proof.
  intros Hlen Hseg.
  unfold exec. rewrite search_anchored by (intros; by rewrite matchAt_template).
  rewrite matchAt_template.
  destruct (runItems_complete (itemsFrom 0 gs tl) cs []
              (mkState [] (fill gs tl cs) (replicate (length gs) None)) atEnd)
    as [z Hz].
  - by rewrite holes_itemsFrom.
  - done.
  - cbn [after]. by rewrite app_nil_r, fillItems_itemsFrom.
  - done.
  - rewrite Hz. done.
Qed.

(** *** The mapping built by [parse] *)

Lemma assign_proto ns cs : assign ns cs !! lit "__proto__" = None.
Proof.
  unfold assign. generalize (zip ns cs). intros l.
  assert (H : (∅ : gmap jsstring Value) !! lit "__proto__" = None) by apply lookup_empty.
  revert H. generalize (∅ : gmap jsstring Value).
  induction l as [|[n c] l IH]; intros acc Hacc; [done|].
  cbn [foldl]. apply IH. unfold Put.
  destruct (decide (n = lit "__proto__")) as [->|Hne].
  - by rewrite Hacc, bool_decide_eq_true_2.
  - destruct (acc !! n); [by rewrite lookup_insert_ne|].
    rewrite bool_decide_eq_false_2 by done. by rewrite lookup_insert_ne.
Qed.

Lemma Put_assign ns cs n v :
  Put (assign ns cs) n v
  = if bool_decide (n = lit "__proto__") then assign ns cs else <[n := v]> (assign ns cs).
Proof.
  unfold Put. destruct (assign ns cs !! n) eqn:Hn; [|done].
  case_bool_decide as Hp; [|done]. subst n. by rewrite assign_proto in Hn.
Qed.

Lemma assign_snoc ns cs n c :
  length ns = length cs →
  assign (ns ++ [n]) (cs ++ [c])
  = if bool_decide (n = lit "__proto__") then assign ns cs
    else <[n := Str c]> (assign ns cs).
Proof.
  intros Hlen. rewrite <- Put_assign.
  unfold assign. rewrite zip_with_app by done. by rewrite foldl_app.
Qed.

Lemma assign_nil_l cs : assign [] cs = ∅.
Proof. done. Qed.

(** Induction on two lists of equal length, from the right. *)
Lemma rev_ind2 (P : list jsstring → list jsstring → Prop) :
  P [] [] →
  (∀ ns cs n c, length ns = length cs → P ns cs → P (ns ++ [n]) (cs ++ [c])) →
  ∀ ns cs, length ns = length cs → P ns cs.
Proof.
  intros Hnil Hsnoc ns. induction ns as [|n ns IH] using rev_ind; intros cs Hlen.
  - by destruct cs.
  - destruct cs as [|c cs _] using rev_ind.
    + rewrite length_app in Hlen. simpl in Hlen. lia.
    + rewrite !length_app in Hlen. simpl in Hlen.
      apply Hsnoc; [lia|]. apply IH. lia.
Qed.

Lemma assign_is_Some ns cs k :
  length ns = length cs →
  is_Some (assign ns cs !! k) ↔ k ∈ ns ∧ k ≠ lit "__proto__".
Proof.
  intros Hlen. revert ns cs Hlen. apply rev_ind2.
  - rewrite assign_nil_l, lookup_empty.
    split; [by intros []|by intros [?%elem_of_nil _]].
  - intros ns cs n c Hlen IH. rewrite assign_snoc by done.
    rewrite elem_of_app, list_elem_of_singleton.
    case_bool_decide as Hp.
    + rewrite IH. subst n. split; [intros [? ?]; by split; [left|]|].
      intros [[?|?] ?]; [done|congruence].
    + destruct (decide (n = k)) as [->|Hne].
      * rewrite lookup_insert_eq. split; [by split; [right|]|by eexists].
      * rewrite lookup_insert_ne by done. rewrite IH.
        split; [intros [? ?]; by split; [left|]|]. intros [[?|?] ?]; [done|congruence].
Qed.

Lemma assign_last : ∀ ns cs,
  length ns = length cs →
  ∀ i k c,
  ns !! i = Some k → cs !! i = Some c → k ≠ lit "__proto__" →
  (∀ j, i < j → ns !! j ≠ Some k) →
  assign ns cs !! k = Some (Str c).
Proof.
  apply (rev_ind2 (fun ns cs => ∀ i k c,
    ns !! i = Some k → cs !! i = Some c → k ≠ lit "__proto__" →
    (∀ j, i < j → ns !! j ≠ Some k) →
    assign ns cs !! k = Some (Str c))).
  - intros i k c Hi. done.
  - intros ns cs n c Hlen IH i k c' Hn Hc Hk Hlast. rewrite assign_snoc by done.
    destruct (decide (i = length ns)) as [->|Hi].
    + rewrite list_lookup_middle in Hn by done. rewrite Hlen in Hc.
      rewrite list_lookup_middle in Hc by done.
      injection Hn as ->. injection Hc as ->.
      rewrite bool_decide_eq_false_2 by done. by rewrite lookup_insert_eq.
    + assert (i < length ns).
      { apply lookup_lt_Some in Hn. rewrite length_app in Hn. simpl in Hn. lia. }
      rewrite lookup_app_l in Hn by done. rewrite lookup_app_l in Hc by lia.
      assert (Hrec : assign ns cs !! k = Some (Str c')).
      { apply (IH i); try done. intros j Hj Hnj. apply (Hlast j Hj).
        by rewrite lookup_app_l by (by eapply lookup_lt_Some). }
      case_bool_decide; [done|].
      rewrite lookup_insert_ne; [done|].
      intros ->. apply (Hlast (length ns)); [done|].
      by rewrite list_lookup_middle.
Qed.

Lemma assign_fmap (g : jsstring → jsstring) ns k :
  assign ns (g <$> ns) !! k
  = if decide (k ∈ ns ∧ k ≠ lit "__proto__") then Some (Str (g k)) else None.
Proof.
  destruct (assign ns (g <$> ns) !! k) as [v|] eqn:Hv.
  - assert (Hk : k ∈ ns ∧ k ≠ lit "__proto__").
    { apply (assign_is_Some ns (g <$> ns)); [by rewrite length_fmap|by eexists]. }
    rewrite decide_True by done. rewrite <- Hv. clear v Hv. destruct Hk as [Hin Hk].
    induction ns as [|n ns IH] using rev_ind; [by apply elem_of_nil in Hin|].
    rewrite fmap_app. cbn [fmap list_fmap]. rewrite assign_snoc by by rewrite length_fmap.
    destruct (decide (n = k)) as [->|Hne].
    + rewrite bool_decide_eq_false_2 by done. by rewrite lookup_insert_eq.
    + apply elem_of_app in Hin as [Hin|Hin%list_elem_of_singleton]; [|congruence].
      case_bool_decide; [by apply IH|]. rewrite lookup_insert_ne by done. by apply IH.
  - rewrite decide_False; [done|]. intros Hk.
    apply (assign_is_Some ns (g <$> ns) k) in Hk as [v Hv']; [congruence|].
    by rewrite length_fmap.
Qed.

Lemma parse_fold ns path : ∀ cs2 cs1 ns1 ns2 acc,
  ns = ns1 ++ ns2 → length ns1 = length cs1 → length ns2 = length cs2 →
  foldl
    (fun (params : gmap jsstring Value) (i : nat) =>
       let segment := ofCapture (default None ((Some path :: (Some <$> cs1 ++ cs2)) !! i)) in
       let paramName := Index ns (i - 1) in
       Put params (ToString paramName) segment)
    acc (seq (S (length cs1)) (length cs2))
  = foldl (fun (m : gmap jsstring Value) '(name, c) => Put m name (Str c)) acc (zip ns2 cs2).
Proof.
  induction cs2 as [|c cs2 IH]; intros cs1 ns1 ns2 acc Hns H1 H2.
  - by destruct ns2.
  - destruct ns2 as [|n ns2]; [done|]. cbn [length seq foldl zip zip_with].
    rewrite Nat.sub_succ, Nat.sub_0_r. cbv zeta.
    assert (Hi : Index ns (length cs1) = Str n).
    { unfold Index. by rewrite Hns, <- H1, list_lookup_middle. }
    assert (Hc : (Some path :: (Some <$> cs1 ++ c :: cs2)) !! S (length cs1) = Some (Some c)).
    { simpl. rewrite list_lookup_fmap, list_lookup_middle; done. }
    rewrite Hi, Hc. cbn [ToString default ofCapture].
    specialize (IH (cs1 ++ [c]) (ns1 ++ [n]) ns2 (Put acc n (Str c))).
    rewrite !length_app, !Nat.add_1_r, <- !app_assoc in IH. cbn [app length] in IH.
    apply IH; [done|lia|]. simpl in H2. lia.
Qed.

Lemma parse_assign ns path cs :
  length ns = length cs →
  foldl
    (fun (params : gmap jsstring Value) (i : nat) =>
       let segment := ofCapture (default None ((Some path :: (Some <$> cs)) !! i)) in
       let paramName := Index ns (i - 1) in
       Put params (ToString paramName) segment)
    ∅ (seq 1 (length (Some path :: (Some <$> cs)) - 1))
  = assign ns cs.
Proof.
  intros Hlen. cbn [length]. rewrite Nat.sub_succ, Nat.sub_0_r, length_fmap.
  by apply (parse_fold ns path cs [] [] ns ∅).
Qed.

(** *** When the captured texts are determined by the path *)

Lemma slash_split u : ∀ u' X X',
  "/" ∉ u → "/" ∉ u' → u ++ "/" :: X = u' ++ "/" :: X' → u = u' ∧ X = X'.
Proof.
  induction u as [|a u IH]; intros [|a' u'] X X' Hu Hu' Heq; simpl in Heq.
  - by injection Heq as ->.
  - injection Heq as <- _. exfalso. apply Hu'. by left.
  - injection Heq as -> _. exfalso. apply Hu. by left.
  - injection Heq as -> Heq. apply IH in Heq as [-> ->]; [done| |].
    + intros ?. apply Hu. by right.
    + intros ?. apply Hu'. by right.
Qed.

Lemma fill_inj gs tl : ∀ cs cs',
  length cs = length gs → length cs' = length gs →
  Forall segment cs → Forall segment cs' →
  Forall (fun g => "/" ∈ g) (tail gs) →
  fill gs tl cs = fill gs tl cs' → cs = cs'.
Proof.
  induction gs as [|g gs IH]; intros cs cs' Hl Hl' Hs Hs' Hsep Heq.
  - destruct cs, cs'; done.
  - destruct cs as [|c cs]; [done|]. destruct cs' as [|c' cs']; [done|].
    simpl in Hl, Hl', Heq, Hsep.
    inversion Hs as [|?? [_ Hc] Hs1]; subst. inversion Hs' as [|?? [_ Hc'] Hs1']; subst.
    apply app_inv_head in Heq.
    destruct gs as [|g2 gs].
    + destruct cs, cs'; try done. simpl in Heq. apply app_inv_tail in Heq. by subst.
    + destruct cs as [|c2 cs]; [done|]. destruct cs' as [|c2' cs']; [done|].
      inversion Hsep as [|?? Hg2 Hsep']; subst.
      apply list_elem_of_split_l in Hg2 as (a & b & -> & Ha).
      assert (Hre : ∀ (c Y : jsstring),
                c ++ (a ++ "/" :: b) ++ Y = (c ++ a) ++ "/" :: (b ++ Y))
        by (intros; by rewrite <- !app_assoc).
      cbn [fill] in Heq. rewrite !Hre in Heq.
      apply slash_split in Heq as [Hca Hrest].
      * apply app_inv_tail in Hca. subst c'. f_equal.
        apply IH; try done; [lia|lia|].
        cbn [fill]. rewrite <- !(app_assoc a). cbn [app]. by rewrite Hrest.
      * rewrite not_elem_of_app. done.
      * rewrite not_elem_of_app. done.
Qed.

(** ** Facts about routes *)

Lemma route_plain f r :
  new f = Normal r → plain f = true →
  regex r = mkRegExp (templateNode (gaps f) (trailing f)) (length (gaps f)).
Proof.
  intros (_ & _ & _ & Hre)%new_inv Hplain.
  rewrite RegExp_new_plain in Hre by done. by injection Hre.
Qed.

Lemma new_plain f : plain f = true → ∃ r, new f = Normal r.
Proof.
  intros Hplain. rewrite new_eq, RegExp_new_plain by done.
  cbn [mbind Completion_bind]. by eexists.
Qed.

Lemma static_names f r :
  new f = Normal r → (isStatic r = true ↔ names f = []).
Proof.
  intros (_ & _ & -> & _)%new_inv. rewrite bool_decide_eq_true.
  by destruct (names f).
Qed.

Lemma static_template f : names f = [] → gaps f = [] ∧ trailing f = f.
Proof.
  intros Hn. pose proof (length_gaps f) as Hlen. rewrite Hn in Hlen.
  destruct (gaps f) as [|g gs] eqn:Hg; [|done]. split; [done|].
  destruct (scan_spec f) as (_ & _ & Hf & _). rewrite Hg, Hn in Hf. done.
Qed.

Lemma match_plain f r path :
  new f = Normal r → plain f = true →
  (match_ r path = true ↔ conforms f path).
Proof.
  intros Hnew Hplain. unfold match_, test, conforms.
  rewrite (route_plain f r) by done. split.
  - destruct (exec _ path) as [m|] eqn:Hm; [|done]. intros _.
    apply exec_template_sound in Hm as (cs & Hlen & Hseg & Hpath & _).
    by exists cs.
  - intros (cs & Hlen & Hseg & ->).
    by destruct (exec_template_complete (gaps f) (trailing f) cs Hlen Hseg) as [m ->].
Qed.

Lemma parse_plain f r path m :
  new f = Normal r → plain f = true → parse r path = Some m →
  ∃ cs, length cs = length (names f) ∧ Forall segment cs ∧
        path = fill (gaps f) (trailing f) cs ∧
        String_match path (regex r) = Some (Some path :: (Some <$> cs)) ∧
        m = assign (names f) cs.
Proof.
  intros Hnew Hplain. unfold parse, String_match.
  rewrite (route_plain f r) by done.
  apply new_inv in Hnew as (_ & -> & _ & _).
  destruct (exec _ path) as [m'|] eqn:Hm; [|done].
  apply exec_template_sound in Hm as (cs & Hlen & Hseg & Hpath & ->).
  rewrite length_gaps in Hlen.
  intros [= <-]. exists cs. split_and!; try done.
  by apply parse_assign.
Qed.

Lemma first_falsy (P : jsstring → bool) l :
  (∃ k, k ∈ l ∧ P k = false) →
  ∃ pre k post, l = pre ++ k :: post ∧ Forall (fun n => P n = true) pre ∧ P k = false.
Proof.
  induction l as [|x l IH]; intros (k & Hin & Hk).
  - by apply elem_of_nil in Hin.
  - destruct (P x) eqn:Hx.
    + destruct IH as (pre & k' & post & -> & Hpre & Hk').
      { exists k. split; [|done]. apply elem_of_cons in Hin as [->|]; [congruence|done]. }
      exists (x :: pre), k', post. split_and!; [done|by constructor|done].
    + by exists [], x, l.
Qed.

Lemma assign_NoDup_get ns cs i k c :
  NoDup ns → length ns = length cs →
  ns !! i = Some k → cs !! i = Some c → k ≠ lit "__proto__" →
  Get (assign ns cs) k = Str c.
Proof.
  intros Hnd Hlen Hk Hc Hp. unfold Get.
  rewrite (assign_last ns cs Hlen i k c); [done|done|done|done|].
  intros j Hj Hkj. pose proof (NoDup_lookup _ _ _ _ Hnd Hk Hkj). lia.
Qed.

Lemma get_assign_names ns cs :
  NoDup ns → length ns = length cs → lit "__proto__" ∉ ns →
  (fun n => ToString (Get (assign ns cs) n)) <$> ns = cs.
Proof.
  intros Hnd Hlen Hp. apply list_eq. intros i. rewrite list_lookup_fmap.
  destruct (ns !! i) as [k|] eqn:Hk; simpl.
  - destruct (lookup_lt_is_Some_2 cs i) as [c Hc].
    { rewrite <- Hlen. by eapply lookup_lt_Some. }
    rewrite (assign_NoDup_get ns cs i k c), Hc; try done.
    intros ->. apply Hp. by eapply list_elem_of_lookup_2.
  - symmetry. apply lookup_ge_None. rewrite <- Hlen. by apply lookup_ge_None.
Qed.

Lemma segment_truthy c : segment c → truthy (Str c) = true.
Proof. intros [Hne _]. by destruct c. Qed.



Lemma separated_Forall f :
  separated f = true → Forall (fun g => "/" ∈ g) (tail (gaps f)).
Proof.
  unfold separated. induction (tail (gaps f)) as [|g gs IH]; simpl; [done|].
  intros [Hg Hgs]%andb_true_iff. constructor; [|by apply IH].
  by apply bool_decide_eq_true in Hg.
Qed.

Import Samples.

(** [PARAM_MATCHER] is what the parser makes of its source text. *)
Lemma PARAM_MATCHER_source : RegExp_new (lit "\{([^{}]+)\}") = Normal PARAM_MATCHER.
Proof. vm_compute. reflexivity. Qed.

Lemma foo_new : new (lit "/foo") = Normal foo.
Proof. vm_compute. reflexivity. Qed.
Lemma fooBar_new : new (lit "/foo/{bar}") = Normal fooBar.
Proof. vm_compute. reflexivity. Qed.
Lemma fooBarBaz_new : new (lit "/foo/{bar}/{baz}") = Normal fooBarBaz.
Proof. vm_compute. reflexivity. Qed.
Lemma dotted_new : new (lit "/a.b") = Normal dotted.
Proof. vm_compute. reflexivity. Qed.
Lemma grouped_new : new (lit "/(a)/{b}") = Normal grouped.
Proof. vm_compute. reflexivity. Qed.
Lemma adjacent_new : new (lit "/{a}{b}") = Normal adjacent.
Proof. vm_compute. reflexivity. Qed.
Lemma repeated_new : new (lit "/a+") = Normal repeated.
Proof. vm_compute. reflexivity. Qed.
Lemma twice_new : new (lit "/{a}/{a}") = Normal twice.
Proof. vm_compute. reflexivity. Qed.
Lemma proto_new : new (lit "/{__proto__}") = Normal proto.
Proof. vm_compute. reflexivity. Qed.

(** *** The test suite of the repository, replayed on the model *)

Example static_initialize :
  format foo = lit "/foo" ∧ paramNames foo = [] ∧ isStatic foo = true.
Proof. done. Qed.

Example static_match :
  match_ foo (lit "/foo") = true ∧ match_ foo (lit "/bar") = false.
Proof. by_evaluation. Qed.

Example static_parse :
  parse foo (lit "/foo") = Some ∅ ∧ parse foo (lit "/bar") = None.
Proof. by_evaluation. Qed.

Example static_compile :
  compile foo (Some ∅)
    = Throw (Error (lit "expected no parameters for static url: /foo")) ∧
  compile foo (Some {[ lit "foo" := Str (lit "bar") ]})
    = Throw (Error (lit "expected no parameters for static url: /foo")) ∧
  compile foo None = Normal (lit "/foo").
Proof. by_evaluation. Qed.

Example single_initialize :
  format fooBar = lit "/foo/{bar}" ∧ paramNames fooBar = [lit "bar"] ∧
  isStatic fooBar = false.
Proof. done. Qed.

Example single_match :
  match_ fooBar (lit "/foo/abc") = true ∧ match_ fooBar (lit "/foo/abc/def") = false.
Proof. by_evaluation. Qed.

Example single_parse :
  parse fooBar (lit "/foo/abc") = Some {[ lit "bar" := Str (lit "abc") ]} ∧
  parse fooBar (lit "/foo/abc/def") = None.
Proof. by_evaluation. Qed.

Example single_compile :
  compile fooBar None
    = Throw (Error (lit "expected parameters for non-static url: /foo/{bar}")) ∧
  compile fooBar (Some ∅)
    = Throw (Error (lit "expected {bar} in parameters for url: /foo/{bar}")) ∧
  compile fooBar (Some {[ lit "bar" := Str (lit "abc") ]}) = Normal (lit "/foo/abc").
Proof. by_evaluation. Qed.

Example multiple_initialize :
  format fooBarBaz = lit "/foo/{bar}/{baz}" ∧
  paramNames fooBarBaz = [lit "bar"; lit "baz"] ∧ isStatic fooBarBaz = false.
Proof. done. Qed.

Example multiple_match :
  match_ fooBarBaz (lit "/foo/abc/def") = true ∧
  match_ fooBarBaz (lit "/foo/abc") = false.
Proof. by_evaluation. Qed.

Example multiple_parse :
  parse fooBarBaz (lit "/foo/abc/def") = Some abcDef ∧
  parse fooBarBaz (lit "/foo/abc") = None.
Proof. by_evaluation. Qed.

Example multiple_compile :
  compile fooBarBaz None
    = Throw (Error (lit "expected parameters for non-static url: /foo/{bar}/{baz}")) ∧
  compile fooBarBaz (Some onlyBar)
    = Throw (Error (lit "expected {baz} in parameters for url: /foo/{bar}/{baz}")) ∧
  compile fooBarBaz (Some abcDef) = Normal (lit "/foo/abc/def").
Proof. by_evaluation. Qed.

(** ** The claims *)

(** C1, counterexample: the static route [/a.b] matches [/axb], which is
    not its format. *)
Lemma C1_counterexample :
  new (lit "/a.b") = Normal dotted ∧ isStatic dotted = true ∧
  match_ dotted (lit "/axb") = true ∧ lit "/axb" ≠ format dotted.
Proof. split; [exact dotted_new|]. by_evaluation. Qed.

(** C1, amended: when the literal text of the template contains none of
    [^ $ \ . * + ? ( ) [ |], [match] accepts exactly the paths that conform
    to the template, that is the literal texts with one or more code units
    other than [/] in every placeholder position and nothing before, between
    or after; on a static route these are the paths equal to the format. *)
Theorem C1_match_conforms f r path :
  new f = Normal r → plain f = true →
  (match_ r path = true ↔ conforms f path) ∧
  (isStatic r = true → (match_ r path = true ↔ path = format r)).
Proof.
  intros Hnew Hplain. split; [by apply match_plain|].
  intros Hs. rewrite (match_plain f r path Hnew Hplain).
  apply (static_names f r Hnew) in Hs.
  destruct (static_template f Hs) as [Hg Ht].
  apply new_inv in Hnew as (-> & _). unfold conforms. rewrite Hg, Ht. split.
  - by intros (cs & _ & _ & ->).
  - intros ->. by exists [].
Qed.

Lemma C1_match_conforms_witness :
  (new (lit "/foo/{bar}") = Normal fooBar ∧ plain (lit "/foo/{bar}") = true ∧
   (match_ fooBar (lit "/foo/abc") = true ↔
      conforms (lit "/foo/{bar}") (lit "/foo/abc"))) ∧
  (new (lit "/foo") = Normal foo ∧ plain (lit "/foo") = true ∧
   isStatic foo = true ∧
   (match_ foo (lit "/foo") = true ↔ lit "/foo" = format foo)).
Proof.
  split.
  - split; [exact fooBar_new|]. split; [vm_compute; reflexivity|].
    apply C1_match_conforms; [exact fooBar_new|vm_compute; reflexivity].
  - split; [exact foo_new|]. split; [vm_compute; reflexivity|].
    split; [reflexivity|].
    apply (C1_match_conforms (lit "/foo") foo);
      [exact foo_new|vm_compute; reflexivity|reflexivity].
Defined.




(** C3, counterexample: the static route [/foo] parses [/foo] to the empty
    mapping, which [compile] rejects; on [/{a}/{a}] the path [/x/y] parses
    to [a = y], which compiles to [/y/y];
    on [/(a)/{b}] the path [/a/x] parses to [b = a], [undefined = x], which
    compiles to [/(a)/a]; on [/{__proto__}] the path [/abc] parses to the
    empty mapping, for which [compile] reads [%Object.prototype%] under
    [__proto__] and returns [/[object Object]]. *)
Lemma C3_counterexample :
  (new (lit "/foo") = Normal foo ∧ parse foo (lit "/foo") = Some ∅ ∧
   compile foo (Some ∅)
   = Throw (Error (lit "expected no parameters for static url: /foo"))) ∧
  (new (lit "/{a}/{a}") = Normal twice ∧
   parse twice (lit "/x/y") = Some onlyA ∧
   compile twice (Some onlyA) = Normal (lit "/y/y")) ∧
  (new (lit "/(a)/{b}") = Normal grouped ∧
   parse grouped (lit "/a/x")
   = Some (<[lit "undefined" := Str (lit "x")]> {[ lit "b" := Str (lit "a") ]}) ∧
   compile grouped (Some (<[lit "undefined" := Str (lit "x")]> {[ lit "b" := Str (lit "a") ]}))
   = Normal (lit "/(a)/a")) ∧
  (new (lit "/{__proto__}") = Normal proto ∧
   parse proto (lit "/abc") = Some ∅ ∧
   compile proto (Some ∅) = Normal (lit "/[object Object]")).
Proof.
  split; [split; [exact foo_new|by_evaluation]|].
  split; [split; [exact twice_new|by_evaluation]|].
  split; [split; [exact grouped_new|by_evaluation]|].
  split; [exact proto_new|by_evaluation].
Qed.

(** C3, amended: on a dynamic route whose literal text contains none of
    [^ $ \ . * + ? ( ) [ |] and whose placeholder names are pairwise
    distinct and other than [__proto__], every path that [parse] accepts is
    reproduced by [compile] from the mapping [parse] returned. *)
Theorem C3_compile_parse f r path m :
  new f = Normal r → plain f = true → isStatic r = false →
  NoDup (paramNames r) → lit "__proto__" ∉ paramNames r →
  parse r path = Some m →
  compile r (Some m) = Normal path.
Proof.
  intros Hnew Hplain Hdyn Hnd Hproto Hparse.
  destruct (parse_plain f r path m Hnew Hplain Hparse) as (cs & Hlen & Hseg & -> & _ & ->).
  pose proof Hnew as (_ & Hp & _ & _)%new_inv. rewrite Hp in Hnd, Hproto.
  assert (Hne : names f ≠ []).
  { intros Hnil. apply (static_names f r Hnew) in Hnil. congruence. }
  rewrite (compile_dynamic f r _ Hnew Hne).
  - by rewrite get_assign_names.
  - apply list.Forall_forall. intros k Hk.
    pose proof Hk as [i Hi]%list_elem_of_lookup.
    destruct (lookup_lt_is_Some_2 cs i) as [c Hc].
    { rewrite Hlen. by eapply lookup_lt_Some. }
    rewrite (assign_NoDup_get _ cs i k c); try done; [|congruence].
    apply segment_truthy. by eapply Forall_lookup_1.
Qed.

Lemma C3_compile_parse_witness :
  new (lit "/foo/{bar}/{baz}") = Normal fooBarBaz ∧
  plain (lit "/foo/{bar}/{baz}") = true ∧ isStatic fooBarBaz = false ∧
  NoDup (paramNames fooBarBaz) ∧ (lit "__proto__" ∉ paramNames fooBarBaz) ∧
  parse fooBarBaz (lit "/foo/abc/def") = Some abcDef ∧
  compile fooBarBaz (Some abcDef) = Normal (lit "/foo/abc/def").
Proof.
  split; [exact fooBarBaz_new|]. split; [vm_compute; reflexivity|].
  split; [reflexivity|]. split; [by_evaluation|]. split; [by_evaluation|].
  split; [exact (proj1 multiple_parse)|].
  apply (C3_compile_parse (lit "/foo/{bar}/{baz}"));
    [exact fooBarBaz_new|vm_compute; reflexivity|reflexivity|by_evaluation
    |by_evaluation|exact (proj1 multiple_parse)].
Defined.




(** C5, counterexample: [compile({})] on the static route [/foo] throws,
    as the test suite of the repository expects. *)
Lemma C5_counterexample :
  new (lit "/foo") = Normal foo ∧ isStatic foo = true ∧
  compile foo (Some ∅)
  = Throw (Error (lit "expected no parameters for static url: /foo")).
Proof. split; [exact foo_new|]. by_evaluation. Qed.

(** C5, amended: on a static route [compile] without argument returns
    the format unchanged, and [compile] with any mapping, the empty one
    included, throws the error "expected no parameters for static url"
    followed by the format. *)
Theorem C5_static_compile f r :
  new f = Normal r → isStatic r = true →
  compile r None = Normal f ∧
  ∀ params, compile r (Some params)
            = Throw (Error (lit "expected no parameters for static url: " ++ f)).
Proof.
  intros (Hf & _)%new_inv Hs. unfold compile. rewrite Hs, Hf. done.
Qed.

Lemma C5_static_compile_witness :
  new (lit "/foo") = Normal foo ∧ isStatic foo = true ∧
  (compile foo None = Normal (lit "/foo") ∧
   ∀ params, compile foo (Some params)
             = Throw (Error (lit "expected no parameters for static url: " ++ lit "/foo"))).
Proof.
  split; [exact foo_new|]. split; [reflexivity|].
  apply C5_static_compile; [exact foo_new|reflexivity].
Defined.







(** C8, counterexample: the template [/(a)/{b}] has one placeholder and
    its matcher has two capture groups. *)
Lemma C8_counterexample :
  new (lit "/(a)/{b}") = Normal grouped ∧
  length (paramNames grouped) = 1 ∧ nCaptures (regex grouped) = 2.
Proof. split; [exact grouped_new|]. by_evaluation. Qed.

(** C8, amended: the constructor keeps the format; the template is its
    literal texts with [{name}] for the names of [paramNames] in between, in
    that order, the names being non-empty and free of braces and the literal
    texts free of placeholders; [isStatic] is true exactly when [paramNames]
    is empty.  When the literal text contains none of
    [^ $ \ . * + ? ( ) [ |], the matcher has one capture group per
    placeholder, group [i] standing where placeholder [i] stands, and the
    array of a match holds the path followed by the texts at the placeholder
    positions in order.  The model has no assignment to a route after
    construction: the three methods are functions of the route's fields. *)
Theorem C8_constructor f r :
  new f = Normal r →
  format r = f ∧
  length (gaps f) = length (paramNames r) ∧
  f = fill (gaps f) (trailing f) (placeholder <$> paramNames r) ∧
  Forall isName (paramNames r) ∧
  Forall (fun g => ¬ hasPlaceholder g) (gaps f ++ [trailing f]) ∧
  (isStatic r = true ↔ paramNames r = []) ∧
  (plain f = true →
     regex r = mkRegExp (templateNode (gaps f) (trailing f)) (length (paramNames r)) ∧
     ∀ path m, String_match path (regex r) = Some m →
       ∃ cs, length cs = length (paramNames r) ∧
             m = Some path :: (Some <$> cs) ∧
             path = fill (gaps f) (trailing f) cs).
Proof.
  intros Hnew. pose proof Hnew as (Hf & Hp & _)%new_inv.
  destruct (scan_spec f) as (_ & Hnames & Hfill & Hgaps).
  rewrite Hp. split_and!; try done.
  - apply length_gaps.
  - by apply static_names.
  - intros Hplain. rewrite (route_plain f r Hnew Hplain), <- length_gaps.
    split; [done|]. intros path m Hm.
    apply exec_template_sound in Hm as (cs & Hlen & _ & Hpath & ->). by exists cs.
Qed.

Lemma C8_constructor_witness :
  new (lit "/foo/{bar}/{baz}") = Normal fooBarBaz ∧
  plain (lit "/foo/{bar}/{baz}") = true ∧
  String_match (lit "/foo/abc/def") (regex fooBarBaz)
  = Some [Some (lit "/foo/abc/def"); Some (lit "abc"); Some (lit "def")] ∧
  (format fooBarBaz = lit "/foo/{bar}/{baz}" ∧
   length (gaps (lit "/foo/{bar}/{baz}")) = length (paramNames fooBarBaz) ∧
   lit "/foo/{bar}/{baz}"
   = fill (gaps (lit "/foo/{bar}/{baz}")) (trailing (lit "/foo/{bar}/{baz}"))
       (placeholder <$> paramNames fooBarBaz) ∧
   Forall isName (paramNames fooBarBaz) ∧
   Forall (fun g => ¬ hasPlaceholder g)
     (gaps (lit "/foo/{bar}/{baz}") ++ [trailing (lit "/foo/{bar}/{baz}")]) ∧
   (isStatic fooBarBaz = true ↔ paramNames fooBarBaz = [])) ∧
  (regex fooBarBaz
   = mkRegExp (templateNode (gaps (lit "/foo/{bar}/{baz}"))
                 (trailing (lit "/foo/{bar}/{baz}")))
       (length (paramNames fooBarBaz)) ∧
   ∃ cs, length cs = length (paramNames fooBarBaz) ∧
         [Some (lit "/foo/abc/def"); Some (lit "abc"); Some (lit "def")]
         = Some (lit "/foo/abc/def") :: (Some <$> cs) ∧
         lit "/foo/abc/def"
         = fill (gaps (lit "/foo/{bar}/{baz}")) (trailing (lit "/foo/{bar}/{baz}")) cs).
Proof.
  pose proof (C8_constructor (lit "/foo/{bar}/{baz}") fooBarBaz fooBarBaz_new)
    as (H1 & H2 & H3 & H4 & H5 & H6 & H7).
  assert (Hplain : plain (lit "/foo/{bar}/{baz}") = true) by (vm_compute; reflexivity).
  assert (Hm : String_match (lit "/foo/abc/def") (regex fooBarBaz)
               = Some [Some (lit "/foo/abc/def"); Some (lit "abc"); Some (lit "def")])
    by (vm_compute; reflexivity).
  destruct (H7 Hplain) as [H8 H9].
  split; [exact fooBarBaz_new|]. split; [exact Hplain|]. split; [exact Hm|].
  split; [by repeat split|]. split; [exact H8|]. exact (H9 _ _ Hm).
Defined.

(** C9: the literal text of a template goes into the pattern unescaped.
    The template [/a.b] is one literal text containing a [.], which is
    pattern syntax; its route matches [/axb], which differs from the template
    where the [.] stands.  Likewise [/a+] matches [/aaa]. *)
Theorem C9_literal_text_is_pattern :
  (new (lit "/a.b") = Normal dotted ∧
   gaps (lit "/a.b") = [] ∧ trailing (lit "/a.b") = lit "/a.b" ∧
   isExtendedPatternCharacter "." = false ∧
   match_ dotted (lit "/axb") = true ∧ lit "/axb" ≠ lit "/a.b") ∧
  (new (lit "/a+") = Normal repeated ∧
   gaps (lit "/a+") = [] ∧ trailing (lit "/a+") = lit "/a+" ∧
   isExtendedPatternCharacter "+" = false ∧
   match_ repeated (lit "/aaa") = true ∧ lit "/aaa" ≠ lit "/a+").
Proof.
  split.
  - split; [exact dotted_new|]. by_evaluation.
  - split; [exact repeated_new|]. by_evaluation.
Qed.

(** C10: the constructor is not total.  For the templates [(] and
    [/foo(] the text handed to [new RegExp] is an ill-formed pattern, the
    constructor throws a [SyntaxError] and no route is produced. *)
Theorem C10_constructor_throws :
  new (lit "(") = Throw SyntaxError ∧
  new (lit "/foo(") = Throw SyntaxError ∧
  ¬ ∃ r, new (lit "(") = Normal r.
Proof.
  assert (H : new (lit "(") = Throw SyntaxError) by (vm_compute; reflexivity).
  split; [exact H|]. split; [vm_compute; reflexivity|].
  intros [r Hr]. rewrite H in Hr. discriminate.
Qed.

(** ** Further properties of the class *)

(** *** Counting the [/] of a path *)

Lemma slashes_app s t : slashes (s ++ t) = slashes s + slashes t.
Proof. unfold slashes. by rewrite list.filter_app, length_app. Qed.

Lemma slashes_0 s : slashes s = 0 ↔ "/" ∉ s.
Proof.
  unfold slashes. induction s as [|a s IH]; simpl.
  - split; [intros _; apply not_elem_of_nil|done].
  - rewrite filter_cons, not_elem_of_cons. case_decide as Ha; simpl.
    + subst a. split; [lia|]. by intros [? _].
    + rewrite IH. split; [|tauto]. intros ?; split; [congruence|done].
Qed.

Lemma slashes_concat_0 cs : Forall segment cs → slashes (concat cs) = 0.
Proof.
  induction 1 as [|c cs [_ Hc] _ IH]; [done|].
  simpl. rewrite slashes_app, IH. apply slashes_0 in Hc. lia.
Qed.

Lemma slashes_concat_inv cs c : slashes (concat cs) = 0 → c ∈ cs → "/" ∉ c.
Proof.
  induction cs as [|c' cs IH]; simpl; [by intros _ ?%elem_of_nil|].
  rewrite slashes_app.
  intros H [->|Hin]%elem_of_cons; [apply slashes_0; lia|apply IH; [lia|done]].
Qed.

Lemma slashes_fill gs tl : ∀ cs, length cs = length gs →
  slashes (fill gs tl cs) = slashes (concat gs ++ tl) + slashes (concat cs).
Proof.
  induction gs as [|g gs IH]; intros [|c cs] Hlen; try done; simpl.
  rewrite <- !app_assoc, !slashes_app, IH by (simpl in Hlen; lia).
  rewrite !slashes_app. lia.
Qed.

Lemma slashes_placeholder n : slashes (placeholder n) = slashes n.
Proof.
  unfold placeholder. rewrite !slashes_app.
  change (slashes (lit "{")) with 0. change (slashes (lit "}")) with 0. lia.
Qed.

Lemma slashes_placeholders ns :
  Forall (fun n => "/" ∉ n) ns → slashes (concat (placeholder <$> ns)) = 0.
Proof.
  induction 1 as [|n ns Hn _ IH]; [done|].
  cbn [fmap list_fmap concat]. rewrite slashes_app, slashes_placeholder, IH.
  apply slashes_0 in Hn. lia.
Qed.

Lemma slashes_template f :
  Forall (fun n => "/" ∉ n) (names f) → slashes f = slashes (literal f).
Proof.
  intros Hn. destruct (scan_spec f) as (_ & _ & Hf & _).
  pose proof (slashes_fill (gaps f) (trailing f) (placeholder <$> names f)) as H.
  rewrite <- Hf in H. rewrite H by by rewrite length_fmap, length_gaps.
  rewrite slashes_placeholders by done. unfold literal. lia.
Qed.

Lemma length_fill gs tl : ∀ cs, length cs = length gs →
  length (fill gs tl cs) = length (concat gs ++ tl) + length (concat cs).
Proof.
  induction gs as [|g gs IH]; intros [|c cs] Hlen; simpl in *; try lia.
  rewrite <- !app_assoc, !length_app, IH by lia.
  rewrite !length_app. lia.
Qed.

Lemma length_concat_segments cs : Forall segment cs → length cs ≤ length (concat cs).
Proof.
  induction 1 as [|c cs [Hne _] _ IH]; [done|].
  simpl. rewrite length_app. destruct c; [done|]. simpl. lia.
Qed.

Lemma match_slashes f r path :
  new f = Normal r → plain f = true → match_ r path = true →
  slashes path = slashes (literal f).
Proof.
  intros Hnew Hplain Hm.
  apply (match_plain f r path Hnew Hplain) in Hm as (cs & Hlen & Hseg & ->).
  rewrite slashes_fill, slashes_concat_0 by done. unfold literal. lia.
Qed.

(** *** When [compile] returns *)

Lemma dynamic_names f r : new f = Normal r → isStatic r = false → names f ≠ [].
Proof. intros Hnew Hdyn Hnil. apply (static_names f r Hnew) in Hnil. congruence. Qed.

Lemma truthy_ToString v : truthy v = true → ToString v ≠ [].
Proof. by destruct v as [|[|]| |]. Qed.

Lemma some_falsy (params : gmap jsstring Value) ns :
  ¬ Forall (fun n => truthy (Get params n) = true) ns →
  ∃ pre k post, ns = pre ++ k :: post ∧
    Forall (fun n => truthy (Get params n) = true) pre ∧ truthy (Get params k) = false.
Proof.
  intros Hnot. apply not_Forall_Exists in Hnot; [|apply _].
  apply list.Exists_exists in Hnot as (k & Hin & Hk). simpl in Hk.
  apply (first_falsy (fun n => truthy (Get params n))).
  exists k. split; [done|]. by destruct (truthy (Get params k)).
Qed.

Lemma compile_Normal (f : jsstring) (r : Route) (params : gmap jsstring Value) path :
  new f = Normal r → isStatic r = false →
  (compile r (Some params) = Normal path ↔
   Forall (fun n => truthy (Get params n) = true) (names f) ∧
   path = fill (gaps f) (trailing f) ((fun n => ToString (Get params n)) <$> names f)).
Proof.
  intros Hnew Hdyn. pose proof (dynamic_names f r Hnew Hdyn) as Hne.
  destruct (decide (Forall (fun n => truthy (Get params n) = true) (names f)))
    as [Hall|Hnot].
  - rewrite (compile_dynamic f r params Hnew Hne Hall).
    split; [by intros [= <-]|by intros [_ ->]].
  - split; [|tauto]. intros Hc. exfalso.
    destruct (some_falsy params (names f) Hnot) as (pre & k & post & Hnames & Hpre & Hk).
    by rewrite (compile_missing f r params pre k post Hnew Hnames Hpre Hk) in Hc.
Qed.

Lemma compile_dynamic_only r params path :
  compile r (Some params) = Normal path → isStatic r = false.
Proof. unfold compile. by destruct (isStatic r). Qed.

(** *** [compile] *)

(** X1: on a dynamic route, whatever its literal text, [compile] with a
    mapping returns a path exactly when what the mapping yields under every
    placeholder name, from an entry of its own or else from
    [%Object.prototype%], is neither [undefined] nor the empty string, and the
    path is then the template with each [{name}] replaced by the text of what
    the mapping yields under [name], the literal texts standing as they are.
    The values are not looked at beyond that: a [/] or a brace in a value
    goes into the path. *)
Theorem X1_compile_result (f : jsstring) (r : Route) (params : gmap jsstring Value)
    (path : jsstring) :
  new f = Normal r → isStatic r = false →
  (compile r (Some params) = Normal path ↔
   Forall (fun n => truthy (Get params n) = true) (paramNames r) ∧
   path = fill (gaps f) (trailing f)
            ((fun n => ToString (Get params n)) <$> paramNames r)).
Proof.
  intros Hnew Hdyn. pose proof Hnew as (_ & -> & _ & _)%new_inv.
  by apply compile_Normal.
Qed.

Lemma X1_compile_result_witness :
  new (lit "/foo/{bar}") = Normal fooBar ∧ isStatic fooBar = false ∧
  (compile fooBar (Some onlyBar) = Normal (lit "/foo/abc") ↔
   Forall (fun n => truthy (Get onlyBar n) = true) (paramNames fooBar) ∧
   lit "/foo/abc"
   = fill (gaps (lit "/foo/{bar}")) (trailing (lit "/foo/{bar}"))
       ((fun n => ToString (Get onlyBar n)) <$> paramNames fooBar)).
Proof.
  split; [exact fooBar_new|]. split; [reflexivity|].
  apply (X1_compile_result (lit "/foo/{bar}")); [exact fooBar_new|reflexivity].
Defined.

(** X2: [compile] reads the mapping at the placeholder names only.  Two
    mappings that agree on the names of [paramNames] give the same result,
    be it a path or an error; entries under other keys are ignored. *)
Theorem X2_compile_reads_names_only (f : jsstring) (r : Route)
    (params params' : gmap jsstring Value) :
  new f = Normal r →
  (∀ k, k ∈ paramNames r → params !! k = params' !! k) →
  compile r (Some params) = compile r (Some params').
Proof.
  intros Hnew Heq. destruct (isStatic r) eqn:Hs.
  { unfold compile. by rewrite Hs. }
  pose proof (dynamic_names f r Hnew Hs) as Hne.
  pose proof Hnew as (_ & Hp & _ & _)%new_inv. rewrite Hp in Heq.
  assert (HG : ∀ k, k ∈ names f → Get params k = Get params' k).
  { intros k Hk. unfold Get. by rewrite (Heq k Hk). }
  destruct (decide (Forall (fun n => truthy (Get params n) = true) (names f)))
    as [Hall|Hnot].
  - rewrite (compile_dynamic f r params Hnew Hne Hall).
    rewrite (compile_dynamic f r params' Hnew Hne).
    + f_equal. f_equal. apply Forall_fmap_ext_1, list.Forall_forall.
      intros k Hk. by rewrite (HG k Hk).
    + apply list.Forall_forall. intros k Hk. rewrite <- (HG k Hk).
      by apply (proj1 (list.Forall_forall _ _) Hall).
  - destruct (some_falsy params (names f) Hnot) as (pre & k & post & Hnames & Hpre & Hk).
    rewrite (compile_missing f r params pre k post Hnew Hnames Hpre Hk).
    symmetry. apply (compile_missing f r params' pre k post Hnew Hnames).
    + apply list.Forall_forall. intros n Hn. rewrite <- HG.
      * by apply (proj1 (list.Forall_forall _ _) Hpre).
      * rewrite Hnames. apply elem_of_app. by left.
    + rewrite <- HG; [done|]. rewrite Hnames. apply elem_of_app. right. by left.
Qed.

Lemma X2_compile_reads_names_only_witness :
  new (lit "/foo/{bar}") = Normal fooBar ∧
  (∀ k, k ∈ paramNames fooBar → onlyBar !! k = abcDef !! k) ∧
  compile fooBar (Some onlyBar) = compile fooBar (Some abcDef).
Proof.
  assert (Hagree : ∀ k, k ∈ paramNames fooBar → onlyBar !! k = abcDef !! k).
  { intros k Hk. cbn [paramNames fooBar] in Hk.
    apply list_elem_of_singleton in Hk as ->. by_evaluation. }
  split; [exact fooBar_new|]. split; [exact Hagree|].
  apply (X2_compile_reads_names_only (lit "/foo/{bar}")); [exact fooBar_new|exact Hagree].
Defined.

(** X3: when the literal text of the template contains none of
    [^ $ \ . * + ? ( ) [ |], the route matches a path that its own [compile]
    returned exactly when none of the values put in the placeholder
    positions contains a [/].  [compile] does not reject such a value, and the
    path it then builds is one the route does not match. *)
Theorem X3_compile_output_matches (f : jsstring) (r : Route)
    (params : gmap jsstring Value) (path : jsstring) :
  new f = Normal r → plain f = true →
  compile r (Some params) = Normal path →
  (match_ r path = true ↔ ∀ k, k ∈ paramNames r → "/" ∉ ToString (Get params k)).
Proof.
  intros Hnew Hplain Hc.
  pose proof (compile_dynamic_only r params path Hc) as Hs.
  apply (compile_Normal f r params path Hnew Hs) in Hc as [Hall ->].
  pose proof Hnew as (_ & -> & _ & _)%new_inv.
  set (g := fun n => ToString (Get params n)).
  assert (Hlen : length (g <$> names f) = length (gaps f))
    by by rewrite length_fmap, length_gaps.
  split.
  - intros Hm%(match_slashes f r _ Hnew Hplain).
    rewrite slashes_fill in Hm by done. unfold literal in Hm.
    assert (H0 : slashes (concat (g <$> names f)) = 0) by lia.
    intros k Hk. apply (slashes_concat_inv _ (g k) H0).
    by apply list_elem_of_fmap_2.
  - intros Hns. apply (match_plain f r _ Hnew Hplain).
    exists (g <$> names f). split_and!; [done| |done].
    apply Forall_fmap, list.Forall_forall. intros k Hk. split.
    + apply truthy_ToString. by apply (proj1 (list.Forall_forall _ _) Hall).
    + by apply Hns.
Qed.

Lemma X3_compile_output_matches_witness :
  new (lit "/foo/{bar}") = Normal fooBar ∧ plain (lit "/foo/{bar}") = true ∧
  compile fooBar (Some slashed) = Normal (lit "/foo/a/b") ∧
  (match_ fooBar (lit "/foo/a/b") = true ↔
   ∀ k, k ∈ paramNames fooBar → "/" ∉ ToString (Get slashed k)).
Proof.
  split; [exact fooBar_new|]. split; [vm_compute; reflexivity|].
  split; [by_evaluation|].
  apply (X3_compile_output_matches (lit "/foo/{bar}"));
    [exact fooBar_new|vm_compute; reflexivity|by_evaluation].
Defined.

(** *** [match] *)

(** X4: when the literal text of the template contains none of
    [^ $ \ . * + ? ( ) [ |], every path the route matches has exactly as many
    [/] as the literal text of the template, and as the template itself when
    no placeholder name contains a [/]. *)
Theorem X4_match_slashes f r path :
  new f = Normal r → plain f = true → match_ r path = true →
  slashes path = slashes (literal f) ∧
  (Forall (fun n => "/" ∉ n) (paramNames r) → slashes path = slashes f).
Proof.
  intros Hnew Hplain Hm.
  pose proof (match_slashes f r path Hnew Hplain Hm) as Hs. split; [done|].
  pose proof Hnew as (_ & -> & _ & _)%new_inv.
  intros Hn. by rewrite (slashes_template f Hn).
Qed.

Lemma X4_match_slashes_witness :
  new (lit "/foo/{bar}") = Normal fooBar ∧ plain (lit "/foo/{bar}") = true ∧
  match_ fooBar (lit "/foo/abc") = true ∧
  (slashes (lit "/foo/abc") = slashes (literal (lit "/foo/{bar}")) ∧
   (Forall (fun n => "/" ∉ n) (paramNames fooBar) →
    slashes (lit "/foo/abc") = slashes (lit "/foo/{bar}"))).
Proof.
  split; [exact fooBar_new|]. split; [vm_compute; reflexivity|].
  split; [vm_compute; reflexivity|].
  apply (X4_match_slashes (lit "/foo/{bar}") fooBar);
    [exact fooBar_new|vm_compute; reflexivity|vm_compute; reflexivity].
Defined.

(** X5: when the literal text of the template contains none of
    [^ $ \ . * + ? ( ) [ |] and the route matches a path, it matches neither
    that path with a [/] and any text appended nor that path with any text
    and a [/] put in front: a path with one segment more, or one segment
    less, than a matching path is rejected. *)
Theorem X5_match_segment_boundary f r path s :
  new f = Normal r → plain f = true → match_ r path = true →
  match_ r (path ++ "/" :: s) = false ∧ match_ r (s ++ "/" :: path) = false.
Proof.
  intros Hnew Hplain Hm.
  pose proof (match_slashes f r path Hnew Hplain Hm) as Hs.
  assert (H1 : slashes ("/" :: s) = S (slashes s)) by done.
  assert (H2 : slashes ("/" :: path) = S (slashes path)) by done.
  split.
  - destruct (match_ r (path ++ "/" :: s)) eqn:Hm'; [|done].
    apply (match_slashes f r _ Hnew Hplain) in Hm'.
    rewrite slashes_app in Hm'. lia.
  - destruct (match_ r (s ++ "/" :: path)) eqn:Hm'; [|done].
    apply (match_slashes f r _ Hnew Hplain) in Hm'.
    rewrite slashes_app in Hm'. lia.
Qed.

Lemma X5_match_segment_boundary_witness :
  new (lit "/foo/{bar}") = Normal fooBar ∧ plain (lit "/foo/{bar}") = true ∧
  match_ fooBar (lit "/foo/abc") = true ∧
  (match_ fooBar (lit "/foo/abc" ++ "/" :: lit "def") = false ∧
   match_ fooBar (lit "def" ++ "/" :: lit "/foo/abc") = false).
Proof.
  split; [exact fooBar_new|]. split; [vm_compute; reflexivity|].
  split; [vm_compute; reflexivity|].
  apply (X5_match_segment_boundary (lit "/foo/{bar}") fooBar);
    [exact fooBar_new|vm_compute; reflexivity|vm_compute; reflexivity].
Defined.

(** X6: when the literal text of the template contains none of
    [^ $ \ . * + ? ( ) [ |], a path the route matches is at least as long as
    the literal text of the template plus one code unit per placeholder.  The
    empty path is matched by the route of the empty template only. *)
Theorem X6_match_length f r :
  new f = Normal r → plain f = true →
  (∀ path, match_ r path = true →
     length (literal f) + length (paramNames r) ≤ length path) ∧
  (match_ r [] = true ↔ f = []).
Proof.
  intros Hnew Hplain.
  assert (Hbound : ∀ path, match_ r path = true →
            length (literal f) + length (names f) ≤ length path).
  { intros path Hm.
    apply (match_plain f r path Hnew Hplain) in Hm as (cs & Hlen & Hseg & ->).
    rewrite length_fill by done. pose proof (length_concat_segments cs Hseg).
    rewrite <- length_gaps, <- Hlen. unfold literal. lia. }
  pose proof Hnew as (_ & Hp & _ & _)%new_inv. rewrite Hp.
  split; [exact Hbound|]. split.
  - intros Hm%Hbound. simpl in Hm.
    assert (Hn : names f = []) by (destruct (names f); [done|simpl in Hm; lia]).
    destruct (static_template f Hn) as [Hg Ht].
    unfold literal in Hm. rewrite Hg, Ht in Hm. simpl in Hm.
    destruct f; [done|simpl in Hm; lia].
  - intros ->. apply (match_plain [] r [] Hnew Hplain). by exists [].
Qed.

Lemma X6_match_length_witness :
  new (lit "/foo/{bar}") = Normal fooBar ∧ plain (lit "/foo/{bar}") = true ∧
  ((∀ path, match_ fooBar path = true →
      length (literal (lit "/foo/{bar}")) + length (paramNames fooBar) ≤ length path) ∧
   (match_ fooBar [] = true ↔ lit "/foo/{bar}" = [])).
Proof.
  split; [exact fooBar_new|]. split; [vm_compute; reflexivity|].
  apply (X6_match_length (lit "/foo/{bar}") fooBar);
    [exact fooBar_new|vm_compute; reflexivity].
Defined.

(** *** The constructor *)

Lemma regexSource_head c rest :
  c ≠ "{" → ∃ X, regexSource (c :: rest) = c :: X.
Proof.
  intros Hc. unfold regexSource.
  destruct (scan_spec (c :: rest)) as (_ & _ & Hf & _).
  pose proof (length_gaps (c :: rest)) as Hlen.
  destruct (gaps (c :: rest)) as [|g gs], (names (c :: rest)) as [|n ns]; try done.
  - simpl in *. rewrite <- Hf. by eexists.
  - cbn [fmap list_fmap fill] in Hf. cbn [length replicate fill].
    destruct g as [|a g].
    + simpl in Hf. by injection Hf as ->.
    + simpl in Hf. injection Hf as -> _. simpl. by eexists.
Qed.

Lemma RegExp_new_leading c X :
  c ∈ lit "*+?)" → RegExp_new ("^" :: c :: X) = Throw SyntaxError.
Proof.
  intros Hc. unfold RegExp_new, parsePattern. cbn [length].
  replace (3 * S (S (length X)) + 3) with (S (S (S (S (3 * length X + 5))))) by lia.
  repeat (apply elem_of_cons in Hc as [->|Hc]); [..|by apply elem_of_nil in Hc];
    reflexivity.
Qed.

(** X7: the constructor throws a [SyntaxError] for every template that
    begins with [*], [+], [?] or [)]: behind the [^] that the constructor
    puts in front, none of them can start a term of a pattern. *)
Theorem X7_constructor_rejects c rest :
  c ∈ lit "*+?)" → new (c :: rest) = Throw SyntaxError.
Proof.
  intros Hc. rewrite new_eq.
  destruct (regexSource_head c rest) as [X ->].
  { intros ->. revert Hc. by_evaluation. }
  change (lit "^" ++ (c :: X) ++ lit "$") with ("^" :: c :: (X ++ lit "$")).
  by rewrite RegExp_new_leading.
Qed.

Lemma X7_constructor_rejects_witness :
  "*" ∈ lit "*+?)" ∧ new ("*" :: lit "/{a}") = Throw SyntaxError.
Proof.
  split; [by_evaluation|]. apply X7_constructor_rejects. by_evaluation.
Defined.

(** X8: a route is dynamic exactly when its template contains a
    placeholder, that is a [{], one or more code units that are not braces,
    and a [}].  Empty braces, unclosed braces and a brace inside braces do
    not make one. *)
Theorem X8_dynamic_iff_placeholder f r :
  new f = Normal r → (isStatic r = false ↔ hasPlaceholder f).
Proof.
  intros Hnew. destruct (scan_spec f) as (_ & Hnames & Hf & Hgaps).
  pose proof (length_gaps f) as Hlen. split.
  - intros Hdyn. pose proof (dynamic_names f r Hnew Hdyn) as Hne.
    destruct (names f) as [|n ns]; [done|]. destruct (gaps f) as [|g gs]; [done|].
    cbn [fmap list_fmap fill] in Hf.
    exists g, n, (fill gs (trailing f) (placeholder <$> ns)).
    split; [done|]. by inversion Hnames.
  - intros Hph. destruct (isStatic r) eqn:Hs; [|done].
    apply (static_names f r Hnew) in Hs.
    destruct (static_template f Hs) as [Hg Ht].
    rewrite Hg, Ht in Hgaps. by inversion Hgaps.
Qed.

Lemma X8_dynamic_iff_placeholder_witness :
  new (lit "/foo/{bar}") = Normal fooBar ∧
  (isStatic fooBar = false ↔ hasPlaceholder (lit "/foo/{bar}")).
Proof.
  split; [exact fooBar_new|].
  apply (X8_dynamic_iff_placeholder (lit "/foo/{bar}")). exact fooBar_new.
Defined.

(** *** [parse] *)

(** X9: on every route, a key of the mapping that [parse] returns is
    the name of a placeholder or the string [undefined].  The latter is where
    the text of a capture group lands that has no counterpart in
    [paramNames], the index into [paramNames] being out of range. *)
Theorem X9_parse_keys (r : Route) (path : jsstring) (m : gmap jsstring Value) :
  parse r path = Some m →
  ∀ k, is_Some (m !! k) → k ∈ paramNames r ∨ k = lit "undefined".
Proof.
  unfold parse. destruct (String_match path (regex r)) as [a|]; [|done].
  intros [= <-].
  generalize (seq 1 (length a - 1)). intros l.
  assert (Hinv : ∀ k, is_Some ((∅ : gmap jsstring Value) !! k) →
                      k ∈ paramNames r ∨ k = lit "undefined").
  { intros k. rewrite lookup_empty. by intros []. }
  revert Hinv. generalize (∅ : gmap jsstring Value).
  induction l as [|i l IH]; intros acc Hacc; [done|].
  cbn [foldl]. apply IH. intros k. cbv zeta.
  set (key := ToString (Index (paramNames r) (i - 1))).
  assert (Hkey : key ∈ paramNames r ∨ key = lit "undefined").
  { unfold key, Index.
    destruct (paramNames r !! (i - 1)) as [s|] eqn:Hs; [left|by right].
    by apply list_elem_of_lookup_2 in Hs. }
  generalize (ofCapture (default None (a !! i))). intros v.
  assert (Hput : Put acc key v = acc ∨ Put acc key v = <[key := v]> acc).
  { unfold Put. destruct (acc !! key); [by right|]. case_bool_decide; [by left|by right]. }
  destruct Hput as [-> | ->]; [apply Hacc|].
  destruct (decide (key = k)) as [<-|Hne]; [done|].
  rewrite lookup_insert_ne by done. apply Hacc.
Qed.

Lemma X9_parse_keys_witness :
  parse grouped (lit "/a/x")
  = Some (<[lit "undefined" := Str (lit "x")]> {[ lit "b" := Str (lit "a") ]}) ∧
  ∀ k, is_Some ((<[lit "undefined" := Str (lit "x")]>
                   ({[ lit "b" := Str (lit "a") ]} : gmap jsstring Value)) !! k) →
       k ∈ paramNames grouped ∨ k = lit "undefined".
Proof.
  split; [by_evaluation|].
  apply (X9_parse_keys grouped (lit "/a/x")). by_evaluation.
Defined.

Lemma assign_lookup_Str : ∀ ns cs, length ns = length cs →
  ∀ k v, assign ns cs !! k = Some v → ∃ c, v = Str c ∧ c ∈ cs.
Proof.
  apply (rev_ind2 (fun ns cs =>
    ∀ k v, assign ns cs !! k = Some v → ∃ c, v = Str c ∧ c ∈ cs)).
  - intros k v. by rewrite assign_nil_l, lookup_empty.
  - intros ns cs n c Hlen IH k v. rewrite assign_snoc by done.
    assert (Hold : assign ns cs !! k = Some v → ∃ c0, v = Str c0 ∧ c0 ∈ cs ++ [c]).
    { intros (c' & -> & Hin)%IH. exists c'. split; [done|]. apply elem_of_app. by left. }
    case_bool_decide; [done|].
    destruct (decide (n = k)) as [->|Hne].
    + rewrite lookup_insert_eq. intros [= <-]. exists c. split; [done|].
      apply elem_of_app. right. by left.
    + by rewrite lookup_insert_ne by done.
Qed.

(** What [compile] reads under [__proto__] in a mapping without such an
    entry. *)
Lemma Get_proto (m : gmap jsstring Value) :
  m !! lit "__proto__" = None →
  Get m (lit "__proto__") = PrototypeObject ∧ segment (ToString PrototypeObject).
Proof.
  intros Hm. unfold Get. rewrite Hm. split; [by_evaluation|].
  split; [done|]. by_evaluation.
Qed.

(** On a plain template with a [/] between consecutive placeholders,
    [parse] takes a conforming path apart into the segments it was put
    together from. *)
Lemma parse_fill f r cs :
  new f = Normal r → plain f = true → separated f = true →
  length cs = length (gaps f) → Forall segment cs →
  parse r (fill (gaps f) (trailing f) cs) = Some (assign (names f) cs).
Proof.
  intros Hnew Hplain Hsep Hlen Hseg.
  destruct (exec_template_complete _ (trailing f) _ Hlen Hseg) as [m' Hm'].
  pose proof Hm' as (cs' & Hlen' & Hseg' & Heq & ->)%exec_template_sound.
  apply fill_inj in Heq; try done; [|by apply separated_Forall]. subst cs'.
  pose proof Hnew as (_ & Hp & _ & _)%new_inv.
  unfold parse, String_match. rewrite (route_plain f r Hnew Hplain), Hm', Hp.
  f_equal. apply parse_assign. by rewrite <- length_gaps.
Qed.

(** X10: on a dynamic route whose literal text contains none of
    [^ $ \ . * + ? ( ) [ |] and has a [/] between any two consecutive
    placeholders, the mapping [parse] returns for a path is accepted by
    [compile], and the path [compile] makes of it parses to that same
    mapping.  This holds with repeated names too, where that path may differ
    from the one parsed. *)
Theorem X10_parse_compile_parse (f : jsstring) (r : Route) (path : jsstring)
    (m : gmap jsstring Value) :
  new f = Normal r → plain f = true → separated f = true → isStatic r = false →
  parse r path = Some m →
  ∃ path', compile r (Some m) = Normal path' ∧ parse r path' = Some m.
Proof.
  intros Hnew Hplain Hsep Hdyn Hparse.
  destruct (parse_plain f r path m Hnew Hplain Hparse) as (cs & Hlen & Hseg & _ & _ & ->).
  set (g := fun n => ToString (Get (assign (names f) cs) n)).
  assert (Hval : ∀ k, k ∈ names f → k ≠ lit "__proto__" →
            ∃ c, assign (names f) cs !! k = Some (Str c) ∧ segment c).
  { intros k Hk Hne.
    destruct (proj2 (assign_is_Some (names f) cs k (eq_sym Hlen))) as [v Hv]; [done|].
    destruct (assign_lookup_Str _ _ (eq_sym Hlen) k v Hv) as (c & -> & Hc).
    exists c. split; [done|]. by apply (proj1 (list.Forall_forall _ _) Hseg). }
  assert (Hg : ∀ k, k ∈ names f →
            truthy (Get (assign (names f) cs) k) = true ∧ segment (g k)).
  { intros k Hk. unfold g. destruct (decide (k = lit "__proto__")) as [->|Hne].
    - destruct (Get_proto (assign (names f) cs) (assign_proto _ _)) as [-> Hs]. done.
    - destruct (Hval k Hk Hne) as (c & Hc & Hs). unfold Get. rewrite Hc.
      split; [by apply segment_truthy|done]. }
  exists (fill (gaps f) (trailing f) (g <$> names f)). split.
  - apply (compile_dynamic f r _ Hnew (dynamic_names f r Hnew Hdyn)).
    apply list.Forall_forall. intros k Hk. by apply Hg.
  - assert (Hlen' : length (g <$> names f) = length (gaps f))
      by by rewrite length_fmap, length_gaps.
    assert (Hseg' : Forall segment (g <$> names f)).
    { apply Forall_fmap, list.Forall_forall. intros k Hk. by apply Hg. }
    rewrite (parse_fill f r _ Hnew Hplain Hsep Hlen' Hseg').
    f_equal. apply map_eq. intros k. rewrite assign_fmap.
    case_decide as Hk.
    + destruct Hk as [Hk Hne].
      destruct (Hval k Hk Hne) as (c & Hc & _). unfold g, Get. by rewrite Hc.
    + symmetry. apply eq_None_not_Some. by rewrite (assign_is_Some _ _ _ (eq_sym Hlen)).
Qed.

Lemma X10_parse_compile_parse_witness :
  new (lit "/{a}/{a}") = Normal twice ∧ plain (lit "/{a}/{a}") = true ∧
  separated (lit "/{a}/{a}") = true ∧ isStatic twice = false ∧
  parse twice (lit "/x/y") = Some onlyA ∧
  ∃ path', compile twice (Some onlyA) = Normal path' ∧ parse twice path' = Some onlyA.
Proof.
  split; [exact twice_new|]. split; [vm_compute; reflexivity|].
  split; [vm_compute; reflexivity|]. split; [reflexivity|].
  split; [by_evaluation|].
  apply (X10_parse_compile_parse (lit "/{a}/{a}") twice (lit "/x/y"));
    [exact twice_new|vm_compute; reflexivity|vm_compute; reflexivity|reflexivity
    |by_evaluation].
Defined.

(** X11: on a route whose literal text contains none of
    [^ $ \ . * + ? ( ) [ |] and whose placeholder names are pairwise
    distinct and other than [__proto__], [parse] tells paths apart: two paths
    with the same mapping are the same path.  (A placeholder [__proto__]
    leaves no entry, whatever it matched.) *)
Theorem X11_parse_injective (f : jsstring) (r : Route) (p q : jsstring)
    (m : gmap jsstring Value) :
  new f = Normal r → plain f = true → NoDup (paramNames r) →
  lit "__proto__" ∉ paramNames r →
  parse r p = Some m → parse r q = Some m → p = q.
Proof.
  intros Hnew Hplain Hnd Hproto Hp Hq.
  pose proof Hnew as (_ & Hn & _ & _)%new_inv. rewrite Hn in Hnd, Hproto.
  destruct (parse_plain f r p m Hnew Hplain Hp) as (cs & Hlen & _ & -> & _ & Hm).
  destruct (parse_plain f r q m Hnew Hplain Hq) as (cs' & Hlen' & _ & -> & _ & Hm').
  f_equal.
  rewrite <- (get_assign_names (names f) cs Hnd (eq_sym Hlen) Hproto).
  rewrite <- (get_assign_names (names f) cs' Hnd (eq_sym Hlen') Hproto).
  by rewrite <- Hm, <- Hm'.
Qed.

Lemma X11_parse_injective_witness :
  new (lit "/foo/{bar}/{baz}") = Normal fooBarBaz ∧
  plain (lit "/foo/{bar}/{baz}") = true ∧ NoDup (paramNames fooBarBaz) ∧
  (lit "__proto__" ∉ paramNames fooBarBaz) ∧
  parse fooBarBaz (lit "/foo/abc/def") = Some abcDef ∧
  parse fooBarBaz (lit "/foo/abc/def") = Some abcDef ∧
  lit "/foo/abc/def" = lit "/foo/abc/def".
Proof.
  split; [exact fooBarBaz_new|]. split; [vm_compute; reflexivity|].
  split; [by_evaluation|]. split; [by_evaluation|].
  split; [by_evaluation|]. split; [by_evaluation|].
  apply (X11_parse_injective (lit "/foo/{bar}/{baz}") fooBarBaz _ _ abcDef);
    [exact fooBarBaz_new|vm_compute; reflexivity|by_evaluation|by_evaluation
    |by_evaluation|by_evaluation].
Defined.

(** *** [compile], continued *)

(** X12: on a route with a [/] between any two consecutive placeholders,
    whatever its literal text, [compile] tells mappings apart by the texts it
    substitutes: for two mappings whose texts at the placeholder names contain
    no [/] and that compile to the same path, the text substituted for each
    placeholder name is the same in both, so that two entries that are both
    strings are the same string.  (A text may come from an entry or from
    [%Object.prototype%], so the values themselves may differ.) *)
Theorem X12_compile_injective (f : jsstring) (r : Route)
    (values values' : gmap jsstring Value) (path : jsstring) :
  new f = Normal r → separated f = true →
  (∀ k, k ∈ paramNames r → "/" ∉ ToString (Get values k)) →
  (∀ k, k ∈ paramNames r → "/" ∉ ToString (Get values' k)) →
  compile r (Some values) = Normal path →
  compile r (Some values') = Normal path →
  ∀ k, k ∈ paramNames r →
    ToString (Get values k) = ToString (Get values' k) ∧
    (∀ s s', values !! k = Some (Str s) → values' !! k = Some (Str s') → s = s').
Proof.
  intros Hnew Hsep Hv Hv' Hc Hc'.
  pose proof (compile_dynamic_only r values path Hc) as Hs.
  apply (compile_Normal f r _ path Hnew Hs) in Hc as [Hall ->].
  apply (compile_Normal f r _ _ Hnew Hs) in Hc' as [Hall' Heq].
  pose proof Hnew as (_ & Hp & _ & _)%new_inv. rewrite Hp in *.
  assert (Hsegs : ∀ vs : gmap jsstring Value,
            (∀ k, k ∈ names f → "/" ∉ ToString (Get vs k)) →
            Forall (fun n => truthy (Get vs n) = true) (names f) →
            Forall segment ((fun n => ToString (Get vs n)) <$> names f)).
  { intros vs Hns Ht. apply Forall_fmap, list.Forall_forall. intros k Hk. split.
    - apply truthy_ToString. by apply (proj1 (list.Forall_forall _ _) Ht).
    - by apply Hns. }
  apply fill_inj in Heq; try (by rewrite length_fmap, length_gaps);
    [|by apply Hsegs|by apply Hsegs|by apply separated_Forall].
  intros k Hk. pose proof (list_fmap_inj_1 _ _ _ k Heq Hk) as Hk'. simpl in Hk'.
  split; [done|]. intros s s' Hks Hks'.
  unfold Get in Hk'. by rewrite Hks, Hks' in Hk'.
Qed.

Lemma X12_compile_injective_witness :
  new (lit "/foo/{bar}") = Normal fooBar ∧ separated (lit "/foo/{bar}") = true ∧
  (∀ k, k ∈ paramNames fooBar → "/" ∉ ToString (Get onlyBar k)) ∧
  (∀ k, k ∈ paramNames fooBar → "/" ∉ ToString (Get abcDef k)) ∧
  compile fooBar (Some onlyBar) = Normal (lit "/foo/abc") ∧
  compile fooBar (Some abcDef) = Normal (lit "/foo/abc") ∧
  ∀ k, k ∈ paramNames fooBar →
    ToString (Get onlyBar k) = ToString (Get abcDef k) ∧
    (∀ s s', onlyBar !! k = Some (Str s) → abcDef !! k = Some (Str s') → s = s').
Proof.
  assert (H1 : ∀ k, k ∈ paramNames fooBar → "/" ∉ ToString (Get onlyBar k)).
  { intros k Hk. cbn [paramNames fooBar] in Hk.
    apply list_elem_of_singleton in Hk as ->. by_evaluation. }
  assert (H2 : ∀ k, k ∈ paramNames fooBar → "/" ∉ ToString (Get abcDef k)).
  { intros k Hk. cbn [paramNames fooBar] in Hk.
    apply list_elem_of_singleton in Hk as ->. by_evaluation. }
  split; [exact fooBar_new|]. split; [vm_compute; reflexivity|].
  split; [exact H1|]. split; [exact H2|].
  split; [by_evaluation|]. split; [by_evaluation|].
  apply (X12_compile_injective (lit "/foo/{bar}") fooBar onlyBar abcDef (lit "/foo/abc"));
    [exact fooBar_new|vm_compute; reflexivity|exact H1|exact H2
    |by_evaluation|by_evaluation].
Defined.

(** *** Templates with a [.] in their literal text *)

Lemma dotItems_next n its :
  dotItems n its → noBracedQuantifier (itemsSource its ++ lit "$") →
  noQuantifier (itemsSource its ++ lit "$") = true.
Proof.
  destruct its as [|[c|k] its]; [done| |done].
  intros [Hc _] Hbr.
  change (itemsSource (Lit c :: its) ++ lit "$") with (c :: (itemsSource its ++ lit "$")) in *.
  cbn [noQuantifier]. apply andb_true_iff. split.
  - revert Hc. by_cases_on_ascii c.
  - destruct (Ascii.eqb_spec c "{") as [->|]; [|done].
    by rewrite (Hbr [] _ eq_refl).
Qed.

Lemma parseAlternative_dotItems its : ∀ fuel n acc,
  dotItems n its → noBracedQuantifier (itemsSource its ++ lit "$") →
  length its + 5 ≤ fuel →
  parseAlternative fuel (itemsSource its ++ lit "$") n acc
  = Normal (Seq (foldl Seq acc (dotItemNode <$> its)) AssertEnd, [], n + holes its).
Proof.
  induction its as [|[c|k] its IH]; intros fuel n acc Hp Hbr Hf.
  - do 2 (destruct fuel as [|fuel]; [simpl in Hf; lia|]).
    simpl. by rewrite Nat.add_0_r.
  - destruct Hp as [Hc Hp]. simpl in Hf.
    do 2 (destruct fuel as [|fuel]; [lia|]).
    change (itemsSource (Lit c :: its) ++ lit "$")
      with (c :: (itemsSource its ++ lit "$")) in *.
    assert (Hbr' : noBracedQuantifier (itemsSource its ++ lit "$"))
      by exact (noBracedQuantifier_app [c] _ Hbr).
    rewrite parseAlternative_step.
    2,3: intros ->; done.
    rewrite fmap_cons. cbn [foldl dotItemNode holes]. unfold dotNode.
    destruct (decide (c = "{")) as [->|Hne].
    + rewrite parseTerm_brace by exact (Hbr [] _ eq_refl).
      rewrite quantify_none by eauto using dotItems_next.
      cbn [mbind Completion_bind]. rewrite IH by (done || lia). done.
    + destruct (Ascii.eqb_spec c ".") as [->|Hdot].
      * change (parseTerm (S fuel) ("." :: (itemsSource its ++ lit "$")) n)
          with (quantify Dot (itemsSource its ++ lit "$") n).
        rewrite quantify_none by eauto using dotItems_next.
        cbn [mbind Completion_bind]. rewrite IH by (done || lia). done.
      * rewrite parseTerm_plain; [|revert Hc Hdot; by_cases_on_ascii c; congruence|done].
        rewrite quantify_none by eauto using dotItems_next.
        cbn [mbind Completion_bind]. rewrite IH by (done || lia). done.
  - destruct Hp as [-> Hp]. simpl in Hf.
    do 5 (destruct fuel as [|fuel]; [lia|]).
    change (itemsSource (Hole n :: its) ++ lit "$")
      with ("(" :: (lit "[^/]+)" ++ (itemsSource its ++ lit "$"))) in *.
    assert (Hbr' : noBracedQuantifier (itemsSource its ++ lit "$"))
      by exact (noBracedQuantifier_app (lit "([^/]+)") _ Hbr).
    rewrite parseAlternative_step by done.
    change ("(" :: (lit "[^/]+)" ++ (itemsSource its ++ lit "$")))
      with (lit "([^/]+)" ++ (itemsSource its ++ lit "$")).
    rewrite parseTerm_hole by eauto using dotItems_next.
    cbn [mbind Completion_bind]. rewrite IH by (done || lia). simpl.
    do 2 f_equal. lia.
Qed.

Lemma dotItems_app n its1 its2 :
  holes its1 = 0 → dotItems n its1 → dotItems n its2 → dotItems n (its1 ++ its2).
Proof.
  induction its1 as [|[c|k] its1 IH]; simpl; [done| |done].
  intros Hh [Hc Hp] Hp2. split; [done|]. by apply IH.
Qed.

Lemma dotItems_Lit n s : forallb plainOrDot s = true → dotItems n (Lit <$> s).
Proof.
  induction s as [|c s IH]; simpl; [done|]. intros [Hc Hs]%andb_true_iff.
  split; [done|by apply IH].
Qed.

Lemma dotItems_itemsFrom gs tl : ∀ n,
  forallb (forallb plainOrDot) (gs ++ [tl]) = true → dotItems n (itemsFrom n gs tl).
Proof.
  induction gs as [|g gs IH]; intros n; simpl.
  - rewrite andb_true_r. apply dotItems_Lit.
  - intros [Hg Hrest]%andb_true_iff.
    apply dotItems_app; [apply holes_Lit|by apply dotItems_Lit|].
    split; [done|]. by apply IH.
Qed.

Lemma RegExp_new_dots f :
  plainWithDots f = true →
  RegExp_new (lit "^" ++ regexSource f ++ lit "$")
  = Normal (mkRegExp (dotTemplateNode (gaps f) (trailing f)) (length (gaps f))).
Proof.
  intros Hplain. unfold RegExp_new, parsePattern, regexSource.
  rewrite <- (itemsSource_itemsFrom _ _ 0).
  set (its := itemsFrom 0 (gaps f) (trailing f)).
  assert (Hits : dotItems 0 its) by by apply dotItems_itemsFrom.
  assert (Hbr : noBracedQuantifier (itemsSource its ++ lit "$")).
  { unfold its. rewrite itemsSource_itemsFrom. apply noBracedQuantifier_source. }
  pose proof (length_itemsSource its) as Hlen.
  set (src := itemsSource its ++ lit "$") in *.
  change (lit "^" ++ src) with ("^" :: src).
  assert (Hsrc : length its < length src).
  { unfold src. rewrite length_app. simpl. lia. }
  replace (3 * length ("^" :: src) + 3) with (S (S (S (3 * length src + 3))))
    by (simpl; lia).
  change (parseDisjunction (S (S (S (3 * length src + 3)))) ("^" :: src) 0)
    with ('(a, r1, n1) ← parseAlternative (S (S (3 * length src + 3))) ("^" :: src) 0 Empty;
          match r1 with
          | "|" :: r2 =>
              '(b, r3, n3) ← parseDisjunction (S (S (3 * length src + 3))) r2 n1;
              Normal (Disjunction a b, r3, n3)
          | _ => Normal (a, r1, n1)
          end).
  rewrite parseAlternative_step by done.
  change (parseTerm (S (3 * length src + 3)) ("^" :: src) 0)
    with (Normal (AssertStart, src, 0) : Completion (Node * jsstring * nat)).
  cbn [mbind Completion_bind].
  subst src. rewrite parseAlternative_dotItems by (done || lia).
  cbn [mbind Completion_bind]. unfold dotTemplateNode, its.
  by rewrite holes_itemsFrom.
Qed.

Lemma dotNode_matcher t bef aft cap c :
  CompileSubpattern (dotNode t) (mkState bef aft cap) c
  = match aft with
    | a :: rest => if accepts t a then c (mkState (a :: bef) rest cap) else None
    | [] => None
    end.
Proof.
  unfold dotNode, accepts.
  destruct (t =? "."); cbn [CompileSubpattern]; unfold CharacterSetMatcher;
    cbn [after before captures]; done.
Qed.

Lemma runDotItems_sound its : ∀ x c z,
  runList (dotItemNode <$> its) x c = Some z →
  ∃ its' cs rest, Forall2 itemAccepts its its' ∧
    length cs = holes its ∧ Forall segment cs ∧
    after x = fillItems its' cs ++ rest ∧
    c (mkState (reverse (fillItems its' cs) ++ before x) rest
         (capItems its' cs (captures x))) = Some z.
Proof.
  induction its as [|[t|n] its IH]; intros [bef aft cap] c z H.
  - exists [], [], aft. split_and!; done.
  - rewrite fmap_cons in H. cbn [runList dotItemNode] in H.
    rewrite dotNode_matcher in H.
    destruct aft as [|a rest]; [done|].
    destruct (accepts t a) eqn:Ha; [|done].
    apply IH in H as (its' & cs & rest' & Hits & Hlen & Hseg & Haft & Hc). simpl in *.
    exists (Lit a :: its'), cs, rest'. split_and!; [by constructor|done|done| |].
    + by rewrite Haft.
    + cbn [fillItems capItems]. rewrite reverse_cons, <- app_assoc. done.
  - rewrite fmap_cons in H. cbn [runList dotItemNode] in H. rewrite Hole_matcher in H.
    destruct aft as [|a rest]; [done|].
    destruct (notSlash a) eqn:Ha; [|done].
    apply greedyRun_sound in H as (pre & rest1 & -> & Hpre & H).
    cbn [before after captures] in H.
    change (a :: pre ++ rest1) with ((a :: pre) ++ rest1) in H.
    rewrite consumed_app in H.
    apply IH in H as (its' & cs & rest' & Hits & Hlen & Hseg & Haft & Hc). simpl in *.
    exists (Hole n :: its'), ((a :: pre) :: cs), rest'. split_and!.
    + by constructor.
    + simpl. by rewrite Hlen.
    + constructor; [|done]. split; [done|].
      apply Forall_notSlash. by constructor.
    + simpl. rewrite Haft, <- app_assoc. done.
    + simpl. rewrite reverse_cons, reverse_app, <- !app_assoc. done.
Qed.

Lemma runDotItems_complete its : ∀ its' cs rest x c,
  Forall2 itemAccepts its its' →
  length cs = holes its → Forall segment cs →
  after x = fillItems its' cs ++ rest →
  is_Some (c (mkState (reverse (fillItems its' cs) ++ before x) rest
                (capItems its' cs (captures x)))) →
  is_Some (runList (dotItemNode <$> its) x c).
Proof.
  induction its as [|[t|n] its IH]; intros its' cs rest [bef aft cap] c Hits Hlen Hseg Haft Hc.
  - inversion Hits; subst. simpl in *. subst. done.
  - inversion Hits as [|? j ? its'' Hj Hits']; subst.
    destruct j as [a|]; [|done]. simpl in Hj.
    rewrite fmap_cons. cbn [runList dotItemNode]. rewrite dotNode_matcher.
    cbn [fillItems capItems] in *.
    simpl in Haft. subst aft. rewrite Hj.
    apply (IH its'' cs rest); [done|done|done|done|]. simpl.
    rewrite reverse_cons, <- app_assoc in Hc. done.
  - inversion Hits as [|? j ? its'' Hj Hits']; subst.
    destruct j as [|k]; [done|]. simpl in Hj. subst k.
    rewrite fmap_cons. cbn [runList dotItemNode]. rewrite Hole_matcher.
    destruct cs as [|c1 cs]; [simpl in Hlen; lia|]. simpl in Hlen, Haft, Hc.
    inversion Hseg as [|?? [Hne Hns] Hseg']; subst.
    destruct c1 as [|a pre]; [done|].
    simpl. apply Forall_notSlash in Hns. inversion Hns as [|?? Ha Hpre]; subst.
    rewrite Ha.
    rewrite <- (app_assoc pre).
    apply greedyRun_complete; [done|].
    cbn [before after captures].
    change (a :: pre ++ fillItems its'' cs ++ rest)
      with ((a :: pre) ++ (fillItems its'' cs ++ rest)).
    rewrite consumed_app.
    apply (IH its'' cs rest); [done|lia|done|done|]. simpl.
    rewrite reverse_app, reverse_cons, <- !app_assoc in Hc. done.
Qed.

Lemma accepts_Lit_inv g : ∀ rest its',
  Forall2 itemAccepts ((Lit <$> g) ++ rest) its' →
  ∃ s its'', its' = (Lit <$> s) ++ its'' ∧ instance g s ∧ Forall2 itemAccepts rest its''.
Proof.
  induction g as [|t g IH]; intros rest its' H.
  - exists [], its'. split_and!; [done|constructor|done].
  - rewrite fmap_cons in H. inversion H as [|? j ? its1 Hj H1]; subst.
    destruct j as [a|]; [|done]. simpl in Hj.
    apply IH in H1 as (s & its'' & -> & Hs & Hr).
    exists (a :: s), its''. split_and!; [done|by constructor|done].
Qed.

Lemma accepts_Lit g s rest its'' :
  instance g s → Forall2 itemAccepts rest its'' →
  Forall2 itemAccepts ((Lit <$> g) ++ rest) ((Lit <$> s) ++ its'').
Proof.
  induction 1 as [|t a g s Ha _ IH]; intros Hr; [done|].
  rewrite !fmap_cons. constructor; [done|by apply IH].
Qed.

Lemma accepts_itemsFrom_inv gs tl : ∀ n its',
  Forall2 itemAccepts (itemsFrom n gs tl) its' →
  ∃ ls tl', its' = itemsFrom n ls tl' ∧ Forall2 instance gs ls ∧ instance tl tl'.
Proof.
  induction gs as [|g gs IH]; intros n its' H; cbn [itemsFrom] in H.
  - rewrite <- (app_nil_r (Lit <$> tl)) in H.
    apply accepts_Lit_inv in H as (s & its'' & -> & Hs & Hr). inversion Hr; subst.
    exists [], s. rewrite app_nil_r. split_and!; [done|constructor|done].
  - apply accepts_Lit_inv in H as (s & its'' & -> & Hs & Hr).
    inversion Hr as [|? j ? its1 Hj H1]; subst.
    destruct j as [|k]; [done|]. simpl in Hj. subst k.
    apply IH in H1 as (ls & tl' & -> & Hls & Htl).
    exists (s :: ls), tl'. split_and!; [done|by constructor|done].
Qed.

Lemma accepts_itemsFrom gs ls tl tl' : ∀ n,
  Forall2 instance gs ls → instance tl tl' →
  Forall2 itemAccepts (itemsFrom n gs tl) (itemsFrom n ls tl').
Proof.
  intros n Hls Htl. revert n.
  induction Hls as [|g s gs ls Hs _ IH]; intros n; cbn [itemsFrom].
  - rewrite <- (app_nil_r (Lit <$> tl)), <- (app_nil_r (Lit <$> tl')).
    apply accepts_Lit; [done|constructor].
  - apply accepts_Lit; [done|]. constructor; [done|apply IH].
Qed.

Lemma matchAt_dotTemplate gs tl k bef aft :
  matchAt (mkRegExp (dotTemplateNode gs tl) k) bef aft
  = match bef with
    | [] => runList (dotItemNode <$> itemsFrom 0 gs tl)
              (mkState [] aft (replicate k None)) atEnd
    | _ :: _ => None
    end.
Proof.
  unfold matchAt, dotTemplateNode. cbn [pattern nCaptures].
  change (CompileSubpattern (Seq ?a AssertEnd) ?x Some)
    with (CompileSubpattern a x atEnd).
  rewrite CompileSubpattern_foldl. by destruct bef.
Qed.

Lemma exec_dotTemplate_sound gs tl path m :
  exec (mkRegExp (dotTemplateNode gs tl) (length gs)) path = Some m →
  ∃ ls tl' cs, Forall2 instance gs ls ∧ instance tl tl' ∧
        length cs = length ls ∧ Forall segment cs ∧
        path = fill ls tl' cs ∧ m = Some path :: (Some <$> cs).
Proof.
  unfold exec. rewrite search_anchored by (intros; by rewrite matchAt_dotTemplate).
  rewrite matchAt_dotTemplate.
  destruct (runList _ _ _) as [z|] eqn:Hrun; [|done].
  intros [= <-]. cbn [matched groups].
  apply runDotItems_sound in Hrun as (its' & cs & rest & Hits & Hlen & Hseg & Haft & Hend).
  apply accepts_itemsFrom_inv in Hits as (ls & tl' & -> & Hls & Htl).
  pose proof (list.Forall2_length _ _ _ Hls) as Hgl.
  rewrite holes_itemsFrom in Hlen. cbn [after before captures] in *.
  unfold atEnd in Hend. cbn [after] in Hend. destruct rest as [|]; [|done].
  injection Hend as <-. cbn [after captures].
  rewrite app_nil_r in Haft. rewrite fillItems_itemsFrom in Haft by lia.
  exists ls, tl', cs. split_and!; [done|done|lia|done|done|].
  pose proof (capItems_itemsFrom ls tl' cs []) as Hcap.
  cbn [length app] in Hcap. rewrite Hgl, Hcap by lia.
  cbn [length]. rewrite Nat.sub_0_r, firstn_all. done.
Qed.

Lemma exec_dotTemplate_complete gs tl ls tl' cs :
  Forall2 instance gs ls → instance tl tl' →
  length cs = length ls → Forall segment cs →
  is_Some (exec (mkRegExp (dotTemplateNode gs tl) (length gs)) (fill ls tl' cs)).
Proof.
  intros Hls Htl Hlen Hseg.
  pose proof (list.Forall2_length _ _ _ Hls) as Hgl.
  unfold exec. rewrite search_anchored by (intros; by rewrite matchAt_dotTemplate).
  rewrite matchAt_dotTemplate.
  destruct (runDotItems_complete (itemsFrom 0 gs tl) (itemsFrom 0 ls tl') cs []
              (mkState [] (fill ls tl' cs) (replicate (length gs) None)) atEnd)
    as [z Hz].
  - by apply accepts_itemsFrom.
  - rewrite holes_itemsFrom. lia.
  - done.
  - cbn [after]. by rewrite app_nil_r, fillItems_itemsFrom.
  - done.
  - rewrite Hz. done.
Qed.

Lemma instance_refl g : instance g g.
Proof.
  induction g as [|t g IH]; constructor; [|done].
  unfold accepts. destruct (Ascii.eqb_spec t ".") as [->|]; [done|apply Ascii.eqb_refl].
Qed.

Lemma plain_plainWithDots f : plain f = true → plainWithDots f = true.
Proof.
  unfold plain, plainWithDots. generalize (gaps f ++ [trailing f]). intros l.
  induction l as [|g l IH]; simpl; [done|].
  intros [Hg Hl]%andb_true_iff. rewrite IH by done. rewrite andb_true_r.
  clear IH Hl. induction g as [|c g IH]; simpl in *; [done|].
  apply andb_true_iff in Hg as [Hc Hg]. unfold plainOrDot at 1.
  by rewrite Hc, IH.
Qed.

(** X13: the constructor returns a route for every template in which
    each code unit of the literal text is a [.] or none of
    [^ $ \ . * + ? ( ) [ |], hence for every template whose literal text
    contains none of these at all.  Braces that do not form a placeholder are
    no obstacle. *)
Theorem X13_constructor_succeeds f :
  (plain f = true → plainWithDots f = true) ∧
  (plainWithDots f = true → ∃ r, new f = Normal r).
Proof.
  split; [apply plain_plainWithDots|].
  intros Hplain. rewrite new_eq, RegExp_new_dots by done.
  cbn [mbind Completion_bind]. by eexists.
Qed.

Lemma X13_constructor_succeeds_witness :
  plainWithDots (lit "/a{/{b}/}.c") = true ∧ ∃ r, new (lit "/a{/{b}/}.c") = Normal r.
Proof.
  split; [vm_compute; reflexivity|].
  apply X13_constructor_succeeds. vm_compute. reflexivity.
Defined.

(** X14: templates and paths being strings of code units below 256,
    when every code unit of the literal text of the template is a [.] or none
    of [^ $ \ . * + ? ( ) [ |], the route matches exactly the paths that
    are the literal texts with a segment in every placeholder position,
    except that where the template has a [.] the path may have any code unit
    that is no line terminator, which below 256 are the line feed and the
    carriage return.  In particular every path that conforms to the template
    is matched. *)
Theorem X14_match_with_dots f r :
  new f = Normal r → plainWithDots f = true →
  (∀ path, match_ r path = true ↔ conformsWithDots f path) ∧
  (∀ path, conforms f path → match_ r path = true).
Proof.
  intros (_ & _ & _ & Hre)%new_inv Hplain.
  rewrite RegExp_new_dots in Hre by done. injection Hre as Hre.
  assert (Hm : ∀ path, match_ r path = true ↔ conformsWithDots f path).
  { intros path. unfold match_, test, conformsWithDots. rewrite <- Hre. split.
    - destruct (exec _ path) as [m|] eqn:Hm; [|done]. intros _.
      apply exec_dotTemplate_sound in Hm
        as (ls & tl' & cs & Hls & Htl & Hlen & Hseg & Hpath & _).
      by exists ls, tl', cs.
    - intros (ls & tl' & cs & Hls & Htl & Hlen & Hseg & ->).
      by destruct (exec_dotTemplate_complete (gaps f) (trailing f) ls tl' cs
                     Hls Htl Hlen Hseg) as [m ->]. }
  split; [exact Hm|].
  intros path (cs & Hlen & Hseg & ->). apply Hm.
  exists (gaps f), (trailing f), cs. split_and!; try done.
  - apply Forall_Forall2_diag, list.Forall_forall. intros g _. apply instance_refl.
  - apply instance_refl.
Qed.

Lemma X14_match_with_dots_witness :
  new (lit "/a.b") = Normal dotted ∧ plainWithDots (lit "/a.b") = true ∧
  (∀ path, match_ dotted path = true ↔ conformsWithDots (lit "/a.b") path) ∧
  (∀ path, conforms (lit "/a.b") path → match_ dotted path = true).
Proof.
  split; [exact dotted_new|]. split; [vm_compute; reflexivity|].
  apply (X14_match_with_dots (lit "/a.b") dotted);
    [exact dotted_new|vm_compute; reflexivity].
Defined.

(** X15: on such a template, again over code units below 256, [parse]
    accepts the same paths, and the mapping it returns gives each placeholder
    name other than [__proto__] the segment found at its position, a later
    position overwriting an earlier one of the same name; under [__proto__]
    nothing is stored.  What stands where the template has a [.] is not
    kept. *)
Theorem X15_parse_with_dots (f : jsstring) (r : Route) (path : jsstring)
    (m : gmap jsstring Value) :
  new f = Normal r → plainWithDots f = true →
  parse r path = Some m →
  ∃ ls tl cs, Forall2 instance (gaps f) ls ∧ instance (trailing f) tl ∧
              length cs = length (paramNames r) ∧ Forall segment cs ∧
              path = fill ls tl cs ∧ m = assign (paramNames r) cs.
Proof.
  intros Hnew Hplain. pose proof Hnew as (_ & Hp & _ & Hre)%new_inv.
  rewrite RegExp_new_dots in Hre by done. injection Hre as Hre.
  unfold parse, String_match. rewrite <- Hre, Hp.
  destruct (exec _ path) as [m'|] eqn:Hm; [|done].
  apply exec_dotTemplate_sound in Hm
    as (ls & tl' & cs & Hls & Htl & Hlen & Hseg & Hpath & ->).
  pose proof (list.Forall2_length _ _ _ Hls) as Hgl.
  assert (Hlen' : length (names f) = length cs) by (rewrite <- length_gaps; lia).
  intros [= <-]. exists ls, tl', cs. split_and!; try done.
  by rewrite parse_assign.
Qed.

Lemma X15_parse_with_dots_witness :
  new (lit "/a.b") = Normal dotted ∧ plainWithDots (lit "/a.b") = true ∧
  parse dotted (lit "/axb") = Some ∅ ∧
  ∃ ls tl cs, Forall2 instance (gaps (lit "/a.b")) ls ∧
              instance (trailing (lit "/a.b")) tl ∧
              length cs = length (paramNames dotted) ∧ Forall segment cs ∧
              lit "/axb" = fill ls tl cs ∧
              (∅ : gmap jsstring Value) = assign (paramNames dotted) cs.
Proof.
  split; [exact dotted_new|]. split; [vm_compute; reflexivity|].
  split; [by_evaluation|].
  apply (X15_parse_with_dots (lit "/a.b") dotted);
    [exact dotted_new|vm_compute; reflexivity|by_evaluation].
Defined.

(** *** Which segments [parse] finds *)

Section FirstRun.
Context (p : ascii -> bool).

Lemma greedyRun_None c pre : ∀ rest bef cap,
  greedyRun p c bef (pre ++ rest) cap = None →
  Forall (fun ch => p ch = true) pre →
  c (mkState (reverse pre ++ bef) rest cap) = None.
Proof.
  intros rest bef cap Hnone Hall.
  destruct (c (mkState (reverse pre ++ bef) rest cap)) as [z|] eqn:Hc; [|done].
  destruct (greedyRun_complete p c pre rest bef cap Hall) as [z' Hz'].
  { by rewrite Hc. }
  congruence.
Qed.

Lemma greedyRun_first c aft : ∀ bef cap z,
  greedyRun p c bef aft cap = Some z →
  ∃ pre rest, aft = pre ++ rest ∧ Forall (fun ch => p ch = true) pre ∧
    c (mkState (reverse pre ++ bef) rest cap) = Some z ∧
    ∀ pre' rest', aft = pre' ++ rest' → Forall (fun ch => p ch = true) pre' →
      length pre < length pre' →
      c (mkState (reverse pre' ++ bef) rest' cap) = None.
Proof.
  induction aft as [|ch rest IH]; intros bef cap z H; simpl in H.
  - exists [], []. split_and!; [done|done|done|].
    intros pre' rest' Heq _ Hlen. destruct pre'; [simpl in Hlen; lia|done].
  - destruct (p ch) eqn:Hp.
    + destruct (greedyRun p c (ch :: bef) rest cap) as [z'|] eqn:Hg.
      * injection H as ->. apply IH in Hg as (pre & rest0 & -> & Hall & Hc & Hmax).
        exists (ch :: pre), rest0. split_and!; [done|by constructor| |].
        -- by rewrite reverse_cons, <- app_assoc.
        -- intros pre' rest' Heq Hall' Hlen.
           destruct pre' as [|ch' pre']; [simpl in Hlen; lia|].
           simpl in Heq. injection Heq as <- Heq.
           inversion Hall' as [|?? _ Hall'']; subst.
           rewrite reverse_cons, <- app_assoc. simpl.
           apply Hmax; [done|done|simpl in Hlen; lia].
      * exists [], (ch :: rest). split_and!; [done|done|done|].
        intros pre' rest' Heq Hall' Hlen.
        destruct pre' as [|ch' pre']; [simpl in Hlen; lia|].
        simpl in Heq. injection Heq as <- ->.
        inversion Hall' as [|?? _ Hall'']; subst.
        rewrite reverse_cons, <- app_assoc. simpl.
        by apply greedyRun_None.
    + exists [], (ch :: rest). split_and!; [done|done|done|].
      intros pre' rest' Heq Hall' Hlen.
      destruct pre' as [|ch' pre']; [simpl in Hlen; lia|].
      simpl in Heq. injection Heq as <- ->.
      inversion Hall' as [|?? Hp' _]; subst. congruence.
Qed.

End FirstRun.

Lemma runItems_greedy its : ∀ x z,
  runList (itemNode <$> its) x atEnd = Some z →
  ∃ cs, length cs = holes its ∧ Forall segment cs ∧
    after x = fillItems its cs ∧
    z = mkState (reverse (fillItems its cs) ++ before x) []
          (capItems its cs (captures x)) ∧
    ∀ cs', length cs' = holes its → Forall segment cs' →
      after x = fillItems its cs' →
      lexle (length <$> cs') (length <$> cs).
Proof.
  induction its as [|[ch|n] its IH]; intros [bef aft cap] z H.
  - simpl in H. unfold atEnd in H. simpl in H. destruct aft; [|done].
    injection H as <-. exists []. split_and!; try done.
    intros cs' Hlen _ _. by destruct cs'.
  - rewrite fmap_cons in H. cbn [runList itemNode CompileSubpattern] in H.
    unfold CharacterSetMatcher in H; simpl in H.
    destruct aft as [|a rest]; [done|].
    destruct (Ascii.eqb_spec a ch) as [->|]; [|done].
    apply IH in H as (cs & Hlen & Hseg & Haft & -> & Hmax). simpl in *.
    exists cs. split_and!; [done|done|by rewrite Haft|by rewrite reverse_cons, <- app_assoc|].
    intros cs' Hlen' Hseg' Heq. apply Hmax; [done|done|]. by injection Heq.
  - rewrite fmap_cons in H. cbn [runList] in H. rewrite Hole_matcher in H.
    destruct aft as [|a rest]; [done|].
    destruct (notSlash a) eqn:Ha; [|done].
    apply greedyRun_first in H as (pre & rest1 & -> & Hpre & H & Hfirst).
    cbn [before after captures] in H.
    change (a :: pre ++ rest1) with ((a :: pre) ++ rest1) in H.
    rewrite consumed_app in H.
    apply IH in H as (cs & Hlen & Hseg & Haft & -> & Hmax). simpl in *.
    exists ((a :: pre) :: cs). split_and!.
    + simpl. by rewrite Hlen.
    + constructor; [|done]. split; [done|].
      apply Forall_notSlash. by constructor.
    + simpl. by rewrite Haft.
    + simpl. by rewrite reverse_cons, reverse_app, <- !app_assoc.
    + intros cs' Hlen' Hseg' Heq.
      destruct cs' as [|c1 cs']; [done|]. simpl in Hlen', Heq.
      inversion Hseg' as [|?? [Hne Hns] Hseg'']; subst.
      destruct c1 as [|a' pre']; [done|]. simpl in Heq. injection Heq as <- Heq.
      apply Forall_notSlash in Hns. inversion Hns as [|?? _ Hpre']; subst.
      cbn [fmap list_fmap lexle length].
      destruct (decide (length pre < length pre')) as [Hlt|Hge].
      * exfalso. specialize (Hfirst pre' (fillItems its cs') Heq Hpre' Hlt).
        cbn [before after captures] in Hfirst.
        match type of Hfirst with ?t = None => assert (Hs : is_Some t) end.
        { apply (runItems_complete its cs' []); [lia|done|by rewrite app_nil_r|done]. }
        rewrite Hfirst in Hs. by destruct Hs.
      * destruct (decide (length pre' = length pre)) as [Heql|Hne'].
        -- right. split; [lia|].
           apply app_inj_1 in Heq as [-> Hrest]; [|done].
           apply Hmax; [lia|done|done].
        -- left. lia.
Qed.

Lemma exec_template_greedy gs tl path m :
  exec (mkRegExp (templateNode gs tl) (length gs)) path = Some m →
  ∃ cs, length cs = length gs ∧ Forall segment cs ∧
        path = fill gs tl cs ∧ m = Some path :: (Some <$> cs) ∧
        ∀ cs', length cs' = length gs → Forall segment cs' →
          path = fill gs tl cs' → lexle (length <$> cs') (length <$> cs).
Proof.
  unfold exec. rewrite search_anchored by (intros; by rewrite matchAt_template).
  rewrite matchAt_template.
  destruct (runList _ _ _) as [z|] eqn:Hrun; [|done].
  intros [= <-]. cbn [matched groups].
  apply runItems_greedy in Hrun as (cs & Hlen & Hseg & Haft & -> & Hmax).
  rewrite holes_itemsFrom in Hlen. cbn [after before captures] in *.
  rewrite fillItems_itemsFrom in Haft by done.
  exists cs. split_and!; [done|done|done| |].
  - pose proof (capItems_itemsFrom gs tl cs [] Hlen) as Hcap.
    cbn [length app] in Hcap. rewrite Hcap.
    cbn [length]. rewrite Nat.sub_0_r, firstn_all. done.
  - intros cs' Hlen' Hseg' Heq. apply Hmax; [by rewrite holes_itemsFrom|done|].
    by rewrite fillItems_itemsFrom.
Qed.

(** X16: when the literal text of the template contains none of
    [^ $ \ . * + ? ( ) [ |], the segments [parse] finds at the placeholder
    positions are, among all ways to cut the path into the literal texts and
    one segment per placeholder, the cut that makes the first segment as long
    as possible, then the second, and so on.  Where the cut is not unique, as
    between two placeholders side by side, the earlier placeholder takes all
    it can.  The mapping [parse] returns holds these segments under the
    placeholder names other than [__proto__], a later position overwriting an
    earlier one of the same name. *)
Theorem X16_parse_greedy (f : jsstring) (r : Route) (path : jsstring)
    (m : gmap jsstring Value) :
  new f = Normal r → plain f = true → parse r path = Some m →
  ∃ cs, length cs = length (paramNames r) ∧ Forall segment cs ∧
        path = fill (gaps f) (trailing f) cs ∧ m = assign (paramNames r) cs ∧
        ∀ cs', length cs' = length (paramNames r) → Forall segment cs' →
          path = fill (gaps f) (trailing f) cs' →
          lexle (length <$> cs') (length <$> cs).
Proof.
  intros Hnew Hplain. unfold parse, String_match.
  rewrite (route_plain f r) by done.
  apply new_inv in Hnew as (_ & -> & _ & _).
  destruct (exec _ path) as [m'|] eqn:Hm; [|done].
  apply exec_template_greedy in Hm as (cs & Hlen & Hseg & Hpath & -> & Hmax).
  rewrite length_gaps in Hlen.
  intros [= <-]. exists cs. split_and!; try done.
  - by apply parse_assign.
  - intros cs' Hlen'. apply Hmax. by rewrite length_gaps.
Qed.

Lemma X16_parse_greedy_witness :
  new (lit "/{a}{b}") = Normal adjacent ∧ plain (lit "/{a}{b}") = true ∧
  parse adjacent (lit "/xyz")
  = Some (<[lit "a" := Str (lit "xy")]> {[ lit "b" := Str (lit "z") ]}) ∧
  ∃ cs, length cs = length (paramNames adjacent) ∧ Forall segment cs ∧
        lit "/xyz" = fill (gaps (lit "/{a}{b}")) (trailing (lit "/{a}{b}")) cs ∧
        (<[lit "a" := Str (lit "xy")]> {[ lit "b" := Str (lit "z") ]} : gmap jsstring Value)
        = assign (paramNames adjacent) cs ∧
        ∀ cs', length cs' = length (paramNames adjacent) → Forall segment cs' →
          lit "/xyz" = fill (gaps (lit "/{a}{b}")) (trailing (lit "/{a}{b}")) cs' →
          lexle (length <$> cs') (length <$> cs).
Proof.
  split; [exact adjacent_new|]. split; [vm_compute; reflexivity|].
  split; [by_evaluation|].
  apply (X16_parse_greedy (lit "/{a}{b}") adjacent);
    [exact adjacent_new|vm_compute; reflexivity|by_evaluation].
Defined.

Lemma fill_shift gs tl : ∀ i cs ci a c',
  gs !! (S i) = Some [] → cs !! i = Some ci → cs !! (S i) = Some (a :: c') →
  fill gs tl (<[i := ci ++ [a]]> (<[S i := c']> cs)) = fill gs tl cs.
Proof.
  induction gs as [|g gs IH]; intros i cs ci a c' Hg Hi Hsi; [done|].
  destruct cs as [|c0 cs]; [done|].
  destruct i as [|i].
  - simpl in Hg, Hi, Hsi. injection Hi as ->.
    destruct gs as [|g1 gs]; [done|]. simpl in Hg. injection Hg as ->.
    destruct cs as [|c1 cs]; [done|]. simpl in Hsi. injection Hsi as ->.
    simpl. by rewrite <- !app_assoc.
  - simpl in Hg, Hi, Hsi. simpl. f_equal. f_equal.
    by apply (IH i cs ci a c').
Qed.

Lemma lexle_shift : ∀ i (cs : list jsstring) ci a c',
  cs !! i = Some ci →
  ¬ lexle (length <$> <[i := ci ++ [a]]> (<[S i := c']> cs)) (length <$> cs).
Proof.
  induction i as [|i IH]; intros cs ci a c' Hi H; destruct cs as [|c0 cs]; try done.
  - simpl in Hi. injection Hi as ->. simpl in H. rewrite length_app in H. simpl in H. lia.
  - simpl in Hi. simpl in H. destruct H as [H|[_ H]]; [lia|].
    by apply (IH cs ci a c' Hi).
Qed.

Lemma greedy_adjacent gs tl cs :
  length cs = length gs → Forall segment cs →
  (∀ cs', length cs' = length gs → Forall segment cs' →
     fill gs tl cs = fill gs tl cs' → lexle (length <$> cs') (length <$> cs)) →
  ∀ i c, gs !! (S i) = Some [] → cs !! (S i) = Some c → length c = 1.
Proof.
  intros Hlen Hseg Hmax i c Hg Hc.
  destruct (lookup_lt_is_Some_2 cs i) as [ci Hci].
  { apply lookup_lt_Some in Hc. lia. }
  pose proof (Forall_lookup_1 _ _ _ _ Hseg Hc) as [Hne Hns].
  pose proof (Forall_lookup_1 _ _ _ _ Hseg Hci) as [Hnei Hnsi].
  destruct c as [|a [|b c']]; [done|done|]. exfalso.
  apply (lexle_shift i cs ci a (b :: c') Hci). apply Hmax.
  - by rewrite !length_insert.
  - apply Forall_insert; [apply Forall_insert; [done|]|].
    + split; [done|]. intros Hin. apply Hns. by right.
    + split; [by destruct ci|]. intros [Hin|Hin]%elem_of_app; [done|].
      apply list_elem_of_singleton in Hin as <-. apply Hns. by left.
  - symmetry. by apply fill_shift.
Qed.

(** X17: when the literal text of the template contains none of
    [^ $ \ . * + ? ( ) [ |], a placeholder that follows another one
    with nothing in between is given exactly one code unit by [parse]: the
    placeholder in front takes the rest.  The mapping [parse] returns holds
    the segments found under the placeholder names other than [__proto__]. *)
Theorem X17_parse_adjacent (f : jsstring) (r : Route) (path : jsstring)
    (m : gmap jsstring Value) :
  new f = Normal r → plain f = true → parse r path = Some m →
  ∃ cs, length cs = length (paramNames r) ∧
        path = fill (gaps f) (trailing f) cs ∧ m = assign (paramNames r) cs ∧
        ∀ i c, gaps f !! (S i) = Some [] → cs !! (S i) = Some c → length c = 1.
Proof.
  intros Hnew Hplain. unfold parse, String_match.
  rewrite (route_plain f r) by done.
  apply new_inv in Hnew as (_ & -> & _ & _).
  destruct (exec _ path) as [m'|] eqn:Hm; [|done].
  apply exec_template_greedy in Hm as (cs & Hlen & Hseg & -> & -> & Hmax).
  intros [= <-]. exists cs. split_and!; [by rewrite <- length_gaps|done| |].
  - apply parse_assign. by rewrite <- length_gaps.
  - by apply (greedy_adjacent (gaps f) (trailing f) cs).
Qed.

Lemma X17_parse_adjacent_witness :
  new (lit "/{a}{b}") = Normal adjacent ∧ plain (lit "/{a}{b}") = true ∧
  parse adjacent (lit "/xyz")
  = Some (<[lit "a" := Str (lit "xy")]> {[ lit "b" := Str (lit "z") ]}) ∧
  ∃ cs, length cs = length (paramNames adjacent) ∧
        lit "/xyz" = fill (gaps (lit "/{a}{b}")) (trailing (lit "/{a}{b}")) cs ∧
        (<[lit "a" := Str (lit "xy")]> {[ lit "b" := Str (lit "z") ]} : gmap jsstring Value)
        = assign (paramNames adjacent) cs ∧
        ∀ i c, gaps (lit "/{a}{b}") !! (S i) = Some [] → cs !! (S i) = Some c →
               length c = 1.
Proof.
  split; [exact adjacent_new|]. split; [vm_compute; reflexivity|].
  split; [by_evaluation|].
  apply (X17_parse_adjacent (lit "/{a}{b}") adjacent);
    [exact adjacent_new|vm_compute; reflexivity|by_evaluation].
Defined.
